(** * PageRank: the transition model, the sampling estimator and the
      iterative estimator of [pagerank.py]

    The development embeds the three ranking functions of [pagerank.py]
    and settles the properties its specification states about them.

    Modelling choices.
    - A corpus is a Python [dict] from page names to [set]s of page names:
      a [gmap string (gset string)].  A distribution is a [dict] from page
      names to numbers: a [gmap string Qc].
    - Python numbers are modelled by exact rationals ([Qc], rationals in
      lowest terms, so that equality is Leibniz equality).  Integer counts
      embed into [Qc]; [0.001] is [1/1000].  On rationals the formulas of
      the code are exact; a Python [float] rounds every operation, and
      whether the loop of [iterate_pagerank] is left depends on that
      rounding.  [Binary64] therefore has the iterative estimator once
      more, on IEEE doubles, for the behaviour of the loop itself.
    - The functions run in a state-and-exception monad.  The state (the
      [world]) holds the graph object that the [corpus] parameter refers
      to, the pseudo random generator (a stream of raw draws and a cursor
      into it) and a ghost counter of [transition_model] calls.  An
      exception does not roll the state back, as in Python.
    - A dict is iterated in the order of [map_to_list], not in insertion
      order.  The sums of exact rationals do not depend on the order, and
      the page a random draw selects is stated relative to [keys].
    - [while True] is a loop on a fuel argument; running out of fuel is an
      outcome of its own ([OutOfFuel]), distinct from every exception. *)

From Stdlib Require Import QArith Qcanon Qcabs ZArith Lia Lqa.
From Stdlib Require Floats.PrimFloat Numbers.Cyclic.Int63.Uint63.
From stdpp Require Import numbers strings gmap fin_maps list.

Local Open Scope Qc_scope.

(** ** Outcomes, the world, the monad *)

Inductive pyexn : Set :=
  | ZeroDivisionError
  | KeyError
  | IndexError
  | ValueError.

Inductive outcome (A : Type) : Type :=
  | Ret (a : A)
  | Raise (e : pyexn)
  | OutOfFuel.
Arguments Ret {A} a.
Arguments Raise {A} e.
Arguments OutOfFuel {A}.

Record world : Type := World {
  graph_obj : gmap string (gset string);
  entropy : nat → N;
  cursor : nat;
  tm_calls : nat
}.

Definition M (A : Type) : Type := world → outcome A * world.

Definition ret {A} (a : A) : M A := λ w, (Ret a, w).

Definition bind {A B} (m : M A) (k : A → M B) : M B := λ w,
  match m w with
  | (Ret a, w') => k a w'
  | (Raise e, w') => (Raise e, w')
  | (OutOfFuel, w') => (OutOfFuel, w')
  end.

Definition raise {A} (e : pyexn) : M A := λ w, (Raise e, w).

Definition out_of_fuel {A} : M A := λ w, (OutOfFuel, w).

Declare Scope py_scope.
Delimit Scope py_scope with py.
Notation "x <~ m ;; k" := (bind m (λ x, k))
  (at level 100, m at next level, right associativity) : py_scope.
Local Open Scope py_scope.

(** [for x in l: s = body(x, s)] *)
Fixpoint for_each {A St} (l : list A) (s : St) (body : A → St → M St)
  : M St :=
  match l with
  | [] => ret s
  | x :: l' => s' <~ body x s ;; for_each l' s' body
  end.

(** [all(test(x) for x in l)]: stops at the first false test. *)
Fixpoint py_all {A} (l : list A) (test : A → M bool) : M bool :=
  match l with
  | [] => ret true
  | x :: l' => b <~ test x ;; if b : bool then py_all l' test else ret false
  end.

(** ** Python primitives *)

Definition Qc_of_nat (n : nat) : Qc := Qc_of_Z (Z.of_nat n).

(** [x / y] *)
Definition py_div (x y : Qc) : M Qc :=
  if decide (y = 0) then raise ZeroDivisionError else ret (x / y).

(** [d[k]] *)
Definition dict_get {V} (d : gmap string V) (k : string) : M V :=
  match d !! k with
  | Some v => ret v
  | None => raise KeyError
  end.

(** Keys of a dict, in iteration order. *)
Definition keys {V} (d : gmap string V) : list string := (map_to_list d).*1.

(** [zip( *d.items())] unpacked into two names. *)
Definition zip_items {V} (d : gmap string V) : M (list string * list V) :=
  match map_to_list d with
  | [] => raise ValueError
  | items => ret (items.*1, items.*2)
  end.

(** Reads of the graph the [corpus] parameter refers to. *)
Definition corpus_len : M Qc := λ w, (Ret (Qc_of_nat (size (graph_obj w))), w).
Definition corpus_keys : M (list string) := λ w, (Ret (keys (graph_obj w)), w).
Definition corpus_get (k : string) : M (gset string) := λ w,
  dict_get (graph_obj w) k w.

(** [len(s)] of a set *)
Definition set_len (s : gset string) : Qc := Qc_of_nat (size s).

(** *** The [random] module *)

Definition next_draw : M N := λ w,
  (Ret (entropy w (cursor w)),
   {| graph_obj := graph_obj w; entropy := entropy w;
      cursor := S (cursor w); tm_calls := tm_calls w |}).

(** [random.random()]: a multiple of [2^-53] in [[0, 1)]. *)
Definition random_random : M Qc :=
  r <~ next_draw ;;
  ret (Qc_of_Z (Z.of_N r mod 2 ^ 53) / Qc_of_Z (2 ^ 53)).

(** [random.choice(seq)] *)
Definition random_choice {A} (seq : list A) : M A :=
  match seq with
  | [] => raise IndexError
  | _ =>
      r <~ next_draw ;;
      match seq !! (N.to_nat r mod length seq)%nat with
      | Some x => ret x
      | None => raise IndexError
      end
  end.

(** [itertools.accumulate] *)
Fixpoint accumulate_from (acc : Qc) (ws : list Qc) : list Qc :=
  match ws with
  | [] => []
  | x :: ws' => (acc + x) :: accumulate_from (acc + x) ws'
  end.
Definition accumulate (ws : list Qc) : list Qc := accumulate_from 0 ws.

(** [bisect.bisect_right(a, x, lo, hi)] *)
Fixpoint bisect (fuel : nat) (a : list Qc) (x : Qc) (lo hi : nat) : nat :=
  match fuel with
  | O => lo
  | S fuel' =>
      if decide (lo < hi)%nat then
        let mid := ((lo + hi) `div` 2)%nat in
        if decide (x < default 0 (a !! mid))
        then bisect fuel' a x lo mid
        else bisect fuel' a x (S mid) hi
      else lo
  end.

(** [random.choices(population, weights)[0]] *)
Definition random_choices {A} (population : list A) (weights : list Qc) : M A :=
  let n := length population in
  let cum_weights := accumulate weights in
  if decide (length cum_weights = n) then
    match last cum_weights with
    | None => raise IndexError
    | Some total =>
        if decide (total ≤ 0) then raise ValueError
        else
          u <~ random_random ;;
          match population !! bisect n cum_weights (u * total) 0 (n - 1) with
          | Some x => ret x
          | None => raise IndexError
          end
    end
  else raise ValueError.

(** ** The functions of [pagerank.py] *)

(** Ghost step: counts the calls of [transition_model]. *)
Definition tick_tm : M () := λ w,
  (Ret (),
   {| graph_obj := graph_obj w; entropy := entropy w;
      cursor := cursor w; tm_calls := S (tm_calls w) |}).

(** Lines 52-84. *)
Definition transition_model (page : string) (damping_factor : Qc)
  : M (gmap string Qc) :=
  _ <~ tick_tm ;;
  n <~ corpus_len ;;
  random_factor <~ py_div (1 - damping_factor) n ;;
  ks <~ corpus_keys ;;
  solution <~ for_each ks ∅ (λ key solution,
                ret (<[key := random_factor]> solution)) ;;
  for_each (keys solution) solution (λ web solution,
    links <~ corpus_get page ;;
    if decide (web ∈ links) then
      cur <~ dict_get solution web ;;
      links' <~ corpus_get page ;;
      inc <~ py_div damping_factor (set_len links') ;;
      ret (<[web := cur + inc]> solution)
    else ret solution).

(** Lines 87-148.  The pair [cs] holds the variables [choice] and
    [sample] that the sampling loop updates. *)
Definition sample_pagerank (damping_factor : Qc) (n : Z)
  : M (gmap string Qc) :=
  let sample : list string := [] in
  options <~ corpus_keys ;;
  solution <~ for_each options ∅ (λ key solution,
                ret (<[key := 0]> solution)) ;;
  choice <~ random_choice options ;;
  let sample := sample ++ [choice] in
  cs <~ (if decide (n > 1)%Z then
           for_each (seq 0 (Z.to_nat (n - 1))) (choice, sample) (λ _ cs,
             model <~ transition_model cs.1 damping_factor ;;
             op <~ zip_items model ;;
             choice <~ random_choices op.1 op.2 ;;
             ret (choice, cs.2 ++ [choice]))
         else ret (choice, sample)) ;;
  let sample := cs.2 in
  solution <~ for_each sample solution (λ item solution,
                cur <~ dict_get solution item ;;
                ret (<[item := cur + 1]> solution)) ;;
  let total_samples := Qc_of_nat (length sample) in
  for_each (keys solution) solution (λ key solution,
    cur <~ dict_get solution key ;;
    q <~ py_div cur total_samples ;;
    ret (<[key := q]> solution)).

(** Lines 187-193: what one page [web] adds to [addition], for the page
    [page] being updated. *)
Definition inbound_step (old_pagerank : gmap string Qc) (page web : string)
    (addition : Qc) : M Qc :=
  links <~ corpus_get web ;;
  addition <~ (if decide (page ∈ links) then
                 o <~ dict_get old_pagerank web ;;
                 links' <~ corpus_get web ;;
                 q <~ py_div o (set_len links') ;;
                 ret (addition + q)
               else ret addition) ;;
  links'' <~ corpus_get web ;;
  if decide (links'' = ∅) then
    o <~ dict_get old_pagerank web ;;
    n <~ corpus_len ;;
    q <~ py_div o n ;;
    ret (addition + q)
  else ret addition.

(** Lines 184-197: the [addition] of one page. *)
Definition inbound_sum (old_pagerank : gmap string Qc) (page : string) : M Qc :=
  webs <~ corpus_keys ;;
  addition <~ for_each webs 0 (inbound_step old_pagerank page) ;;
  if decide (addition = 0) then
    n <~ corpus_len ;; py_div 1 n
  else ret addition.

(** Lines 183-199: one update round.  It reads [old_pagerank] and the
    graph, and writes [new_pagerank] only. *)
Definition update_round (damping_factor random_factor : Qc)
    (old_pagerank new_pagerank : gmap string Qc) : M (gmap string Qc) :=
  for_each (keys old_pagerank) new_pagerank (λ page new_pagerank,
    addition <~ inbound_sum old_pagerank page ;;
    ret (<[page := random_factor + damping_factor * addition]> new_pagerank)).

(** The convergence test of line 202. *)
Definition threshold : Qc := Q2Qc (1 # 1000).

Definition convergence_test (old_pagerank new_pagerank : gmap string Qc)
  : M bool :=
  py_all (keys new_pagerank) (λ page,
    n <~ dict_get new_pagerank page ;;
    o <~ dict_get old_pagerank page ;;
    ret (bool_decide (Qcabs (n - o) < threshold))).

(** [while True], lines 180-210.  [old_pagerank = new_pagerank.copy()]
    makes the next round read a snapshot of this round's values, while
    [new_pagerank] stays the one dict the rounds write to. *)
Fixpoint iterate_loop (fuel : nat) (damping_factor random_factor : Qc)
    (old_pagerank new_pagerank : gmap string Qc) : M (gmap string Qc) :=
  match fuel with
  | O => out_of_fuel
  | S fuel' =>
      new_pagerank <~ update_round damping_factor random_factor
                        old_pagerank new_pagerank ;;
      convergence <~ convergence_test old_pagerank new_pagerank ;;
      if convergence : bool then ret new_pagerank
      else
        let old_pagerank := new_pagerank in
        iterate_loop fuel' damping_factor random_factor
          old_pagerank new_pagerank
  end.

(** Lines 151-212. *)
Definition iterate_pagerank (fuel : nat) (damping_factor : Qc)
  : M (gmap string Qc) :=
  ks <~ corpus_keys ;;
  old_pagerank <~ for_each ks ∅ (λ key old_pagerank,
                    n <~ corpus_len ;;
                    v <~ py_div 1 n ;;
                    ret (<[key := v]> old_pagerank)) ;;
  ks <~ corpus_keys ;;
  new_pagerank <~ for_each ks ∅ (λ key new_pagerank,
                    ret (<[key := 0]> new_pagerank)) ;;
  n <~ corpus_len ;;
  random_factor <~ py_div (1 - damping_factor) n ;;
  iterate_loop fuel damping_factor random_factor old_pagerank new_pagerank.


(** ** The iterative estimator on IEEE doubles *)

(** [iterate_pagerank] once more, lines 151-212, with Python's [float]
    as it is: IEEE 754 binary64, every operation rounded to nearest
    even.  Rounding makes a sum depend on the order of its terms, so the
    dicts are insertion-ordered here, as Python's are, and the corpus is
    passed as such a dict instead of being read from the world, which
    the functions thread and leave alone. *)
Module Binary64.
Import PrimFloat.
Local Open Scope float_scope.

(** A [dict] in insertion order. *)
Definition odict (V : Type) : Type := list (string * V).

(** [d[k]] *)
Fixpoint dict_get {V} (d : odict V) (k : string) : M V :=
  match d with
  | [] => raise KeyError
  | (k', v) :: d' => if decide (k' = k) then ret v else dict_get d' k
  end.

(** [d[k] = v]: a key of the dict keeps its place, a new key goes last. *)
Fixpoint dict_set {V} (d : odict V) (k : string) (v : V) : odict V :=
  match d with
  | [] => [(k, v)]%list
  | (k', v') :: d' =>
      if decide (k' = k) then (k, v) :: d' else (k', v') :: dict_set d' k v
  end.

(** Keys of a dict, in iteration order. *)
Definition keys {V} (d : odict V) : list string := d.*1.

(** [x / n] for a float [x] and a length [n]: the length is converted to
    a float, exactly for every length below [2^53]. *)
Definition py_div (x : float) (n : nat) : M float :=
  if decide (n = 0%nat) then raise ZeroDivisionError
  else ret (x / of_uint63 (Uint63.of_Z (Z.of_nat n))).

(** Lines 187-193. *)
Definition inbound_step (corpus : odict (gset string))
    (old_pagerank : odict float) (page web : string) (addition : float)
  : M float :=
  links <~ dict_get corpus web ;;
  addition <~ (if decide (page ∈ links) then
                 o <~ dict_get old_pagerank web ;;
                 links' <~ dict_get corpus web ;;
                 q <~ py_div o (size links') ;;
                 ret (addition + q)
               else ret addition) ;;
  links'' <~ dict_get corpus web ;;
  if decide (links'' = ∅) then
    o <~ dict_get old_pagerank web ;;
    q <~ py_div o (length corpus) ;;
    ret (addition + q)
  else ret addition.

(** Lines 184-197.  [1 / len(corpus)] divides two ints: the quotient
    rounded once, which for a length below [2^53] is the float
    division of the converted operands. *)
Definition inbound_sum (corpus : odict (gset string))
    (old_pagerank : odict float) (page : string) : M float :=
  addition <~ for_each (keys corpus) 0 (inbound_step corpus old_pagerank page) ;;
  if addition =? 0 then py_div 1 (length corpus)
  else ret addition.

(** Lines 183-199. *)
Definition update_round (corpus : odict (gset string))
    (damping_factor random_factor : float)
    (old_pagerank new_pagerank : odict float) : M (odict float) :=
  for_each (keys old_pagerank) new_pagerank (λ page new_pagerank,
    addition <~ inbound_sum corpus old_pagerank page ;;
    ret (dict_set new_pagerank page
           (random_factor + damping_factor * addition))).

(** The double nearest to [0.001]. *)
Definition threshold : float := 0x1.0624dd2f1a9fcp-10.

(** Line 202. *)
Definition convergence_test (old_pagerank new_pagerank : odict float)
  : M bool :=
  py_all (keys new_pagerank) (λ page,
    n <~ dict_get new_pagerank page ;;
    o <~ dict_get old_pagerank page ;;
    ret (abs (n - o) <? threshold)).

(** [while True], lines 180-210. *)
Fixpoint iterate_loop (fuel : nat) (corpus : odict (gset string))
    (damping_factor random_factor : float)
    (old_pagerank new_pagerank : odict float) : M (odict float) :=
  match fuel with
  | O => out_of_fuel
  | S fuel' =>
      new_pagerank <~ update_round corpus damping_factor random_factor
                        old_pagerank new_pagerank ;;
      convergence <~ convergence_test old_pagerank new_pagerank ;;
      if convergence : bool then ret new_pagerank
      else
        let old_pagerank := new_pagerank in
        iterate_loop fuel' corpus damping_factor random_factor
          old_pagerank new_pagerank
  end.

(** Lines 151-212. *)
Definition iterate_pagerank (fuel : nat) (corpus : odict (gset string))
    (damping_factor : float) : M (odict float) :=
  old_pagerank <~ for_each (keys corpus) [] (λ key old_pagerank,
                    v <~ py_div 1 (length corpus) ;;
                    ret (dict_set old_pagerank key v)) ;;
  new_pagerank <~ for_each (keys corpus) [] (λ key new_pagerank,
                    ret (dict_set new_pagerank key 0)) ;;
  random_factor <~ py_div (1 - damping_factor) (length corpus) ;;
  iterate_loop fuel corpus damping_factor random_factor
    old_pagerank new_pagerank.

(** The complete bipartite graph on the pages [a1 a2 a3] and
    [b1 b2 b3 b4]: every [a] links to every [b] and every [b] to every
    [a]. *)
Definition k34 : odict (gset string) :=
  let a : gset string := {[ "a1"; "a2"; "a3" ]}%string in
  let b : gset string := {[ "b1"; "b2"; "b3"; "b4" ]}%string in
  [ ("a1", b); ("a2", b); ("a3", b);
    ("b1", a); ("b2", a); ("b3", a); ("b4", a) ]%string.

(** The largest double below one, [1 - 2^-53]. *)
Definition below_one : float := 0x1.fffffffffffffp-1.

(** The double nearest to [0.85], the value of [DAMPING]. *)
Definition damping_85 : float := 0x1.b333333333333p-1.

End Binary64.

(** ** The crawler *)

(** [s.endswith(suffix)] *)
Fixpoint ends_with (s suffix : string) : bool :=
  String.eqb s suffix
  || match s with
     | EmptyString => false
     | String _ s' => ends_with s' suffix
     end.

(** Lines 25-49.  An entry [(filename, links)] of [listing] stands for an
    entry of the directory, in the order of [os.listdir], and for the
    list [re.findall] extracts from the contents of that file; the
    directory is taken to exist and its [.html] entries to be readable.
    An entry that does not end in [.html] is skipped before it is
    read. *)
Definition crawl (listing : list (string * list string))
  : M (gmap string (gset string)) :=
  pages <~ for_each listing ∅ (λ entry pages,
             let filename := entry.1 in
             if ends_with filename ".html" then
               let links := entry.2 in
               ret (<[filename := list_to_set links ∖ {[filename]}]> pages)
             else ret pages) ;;
  for_each (keys pages) pages (λ filename pages,
    links <~ dict_get pages filename ;;
    ret (<[filename := filter (λ link, link ∈ dom pages) links]> pages)).

(** The pages after the first loop of [crawl] (lines 34-40). *)
Definition crawl_step (pages : gmap string (gset string))
    (entry : string * list string) : gmap string (gset string) :=
  if ends_with entry.1 ".html"
  then <[entry.1 := list_to_set entry.2 ∖ {[entry.1]}]> pages
  else pages.

Definition scanned (listing : list (string * list string))
  : gmap string (gset string) :=
  foldl crawl_step ∅ listing.

(** The names of the listing that end in [.html]. *)
Definition html_names (listing : list (string * list string)) : gset string :=
  list_to_set (filter (λ f, ends_with f ".html" = true) listing.*1).

(** How often [p] occurs in a list of samples. *)
Definition occurrences (p : string) (sample : list string) : nat :=
  length (filter (λ x, x = p) sample).

Local Open Scope string_scope.
Definition listing_ex : list (string * list string) :=
  [ ("1.html", ["2.html"; "3.html"; "1.html"; "style.css"; "2.html"]);
    ("style.css", ["1.html"]%list);
    ("2.html", ["3.html"; "http://example.org/"]);
    ("3.html", ["2.html"; "missing.html"]) ].
Local Close Scope string_scope.

(** ** The update round as the specification words it (section 4.3) *)

Definition rank_of (ranks : gmap string Qc) (w : string) : Qc :=
  default 0 (ranks !! w).

Definition Qsum {A} (f : A → Qc) (l : list A) : Qc :=
  foldr (λ x acc, f x + acc) 0 l.

(** [contribution(w, p)]: [old_rank[w] / |graph[w]|] if [p ∈ graph[w]],
    plus, independently, [old_rank[w] / N] if [graph[w]] is empty. *)
Definition contribution (g : gmap string (gset string))
    (old_rank : gmap string Qc) (p w : string) : Qc :=
  let links := default ∅ (g !! w) in
  (if decide (p ∈ links) then rank_of old_rank w / set_len links else 0)
  + (if decide (links = ∅) then rank_of old_rank w / Qc_of_nat (size g) else 0).

Definition spec_addition (g : gmap string (gset string))
    (old_rank : gmap string Qc) (p : string) : Qc :=
  Qsum (contribution g old_rank p) (keys g).

(** The zero-addition substitution. *)
Definition spec_addition' (g : gmap string (gset string))
    (old_rank : gmap string Qc) (p : string) : Qc :=
  if decide (spec_addition g old_rank p = 0)
  then 1 / Qc_of_nat (size g)
  else spec_addition g old_rank p.

Definition spec_new_rank (g : gmap string (gset string)) (damping : Qc)
    (old_rank : gmap string Qc) (p : string) : Qc :=
  (1 - damping) / Qc_of_nat (size g) + damping * spec_addition' g old_rank p.

(** The share of [w]'s rank that a round hands to [p]. *)
Definition link_weight (g : gmap string (gset string)) (p w : string) : Qc :=
  let links := default ∅ (g !! w) in
  (if decide (p ∈ links) then 1 / set_len links else 0)
  + (if decide (links = ∅) then 1 / Qc_of_nat (size g) else 0).

(** The sum over the pages of the absolute differences of two rankings. *)
Definition dist (g : gmap string (gset string)) (x y : gmap string Qc) : Qc :=
  Qsum (λ p, Qcabs (rank_of x p - rank_of y p)) (keys g).

Definition positive_on (g : gmap string (gset string)) (r : gmap string Qc)
  : Prop :=
  ∀ w, w ∈ keys g → 0 < rank_of r w.

(** What one pass of the loop of lines 77-81 does to [solution]. *)
Definition tm_step (links : gset string) (d : Qc)
    (solution : gmap string Qc) (web : string) : gmap string Qc :=
  if decide (web ∈ links)
  then <[web := default 0 (solution !! web) + d / set_len links]> solution
  else solution.

(** The loop of [iterate_pagerank] without the monad: the ranks a round
    computes from [old_rank], the convergence test, the rounds in
    sequence. *)
Definition next_ranks (g : gmap string (gset string)) (damping : Qc)
    (old_rank : gmap string Qc) : gmap string Qc :=
  map_imap (λ p _, Some (spec_new_rank g damping old_rank p)) g.

Definition converged (old_rank new_rank : gmap string Qc) : bool :=
  forallb (λ p, bool_decide
                  (Qcabs (rank_of new_rank p - rank_of old_rank p) < threshold))
          (keys new_rank).

Definition initial_ranks (g : gmap string (gset string)) : gmap string Qc :=
  (λ _, 1 / Qc_of_nat (size g)) <$> g.

Definition ranks_at (g : gmap string (gset string)) (damping : Qc) (k : nat)
  : gmap string Qc :=
  Nat.iter k (next_ranks g damping) (initial_ranks g).

Definition bump_tm (w : world) : world :=
  {| graph_obj := graph_obj w; entropy := entropy w;
     cursor := cursor w; tm_calls := S (tm_calls w) |}.

(** The world after [random.choice] or [random.random] drew once. *)
Definition advance (w : world) : world :=
  {| graph_obj := graph_obj w; entropy := entropy w;
     cursor := S (cursor w); tm_calls := tm_calls w |}.

(** [sum(d.values())] *)
Definition dict_total (d : gmap string Qc) : Qc :=
  Qsum (λ kv, kv.2) (map_to_list d).

(** A computation leaves the graph object as it found it, whatever its
    outcome. *)
Definition frames_graph {A} (m : M A) : Prop :=
  ∀ w, graph_obj (m w).2 = graph_obj w.

(** Example corpora and inputs.  [corpus_ex] is the corpus of
    [test_transition_model]. *)
Definition world_of (g : gmap string (gset string)) (tape : nat → N)
  : world :=
  {| graph_obj := g; entropy := tape; cursor := 0; tm_calls := 0 |}.

Definition corpus_ex : gmap string (gset string) :=
  {[ "1.html" := {[ "2.html"; "3.html" ]};
     "2.html" := {[ "3.html" ]};
     "3.html" := {[ "2.html" ]} ]}%string.

Definition two_cycle : gmap string (gset string) :=
  {[ "a" := {[ "b" ]}; "b" := {[ "a" ]} ]}%string.

Definition with_dangling : gmap string (gset string) :=
  {[ "1" := {[ "2" ]}; "2" := ∅ ]}%string.

Definition corpus_leaf : gmap string (gset string) :=
  {[ "1.html" := {[ "2.html" ]}; "2.html" := ∅ ]}%string.

Definition d85 : Qc := Q2Qc (85 # 100).

Definition tape0 : nat → N := λ n, (N.of_nat n * 7919 + 1)%N.

Definition w_ex : world := world_of corpus_ex tape0.

Definition w_empty : world := world_of ∅ tape0.

(** ** Proof tactics *)

(** Goals and hypotheses on [Qc] restated on [Q], where [lra], [nra] and
    [field] apply. *)
Ltac qc_to_q :=
  repeat match goal with
  | H : @eq Qc ?x ?y |- _ =>
      assert (this x == this y)%Q by (rewrite H; reflexivity); clear H
  | H : ¬ @eq Qc ?x ?y |- _ =>
      assert (¬ (this x == this y)%Q)
        by (let E := fresh in intros E; apply H, Qc_is_canon, E);
      clear H
  | |- @eq Qc _ _ => apply Qc_is_canon
  | |- ¬ @eq Qc _ _ =>
      let E := fresh in intros E; apply (f_equal this) in E; revert E
  end;
  unfold Qcle, Qclt, Qcminus, Qcdiv, Qcplus, Qcmult, Qcopp, Qcinv, Q2Qc in *;
  cbn [this] in *;
  rewrite ?Qred_correct in *.

(** A concrete graph is not the empty one. *)
Ltac graph_nonempty :=
  let H := fresh in
  intros H; apply (f_equal size) in H; vm_compute in H; discriminate H.

(** * Proofs *)

(** ** Loops whose body only reads the world *)

Lemma for_each_pure {A St} (I : St → Prop) (f : St → A → St)
    (l : list A) (body : A → St → M St) (s : St) (w : world) :
  I s →
  (∀ x s, x ∈ l → I s → body x s w = (Ret (f s x), w) ∧ I (f s x)) →
  for_each l s body w = (Ret (foldl f s l), w) ∧ I (foldl f s l).
Proof.
  revert s. induction l as [|x l IH]; intros s Hs Hbody; [done|].
  destruct (Hbody x s) as [Hx HI]; [left | done |].
  cbn [for_each foldl]. unfold bind. rewrite Hx.
  apply IH; [done|]. intros y s' Hy. apply Hbody. by right.
Qed.

Lemma lookup_foldl_insert {V} (v : string → V) (l : list string)
    (m : gmap string V) (p : string) :
  foldl (λ s k, <[k := v k]> s) m l !! p
  = if decide (p ∈ l) then Some (v p) else m !! p.
Proof.
  revert m. induction l as [|k l IH]; intros m; cbn [foldl].
  - by rewrite decide_False by apply not_elem_of_nil.
  - rewrite IH. destruct (decide (p ∈ l)) as [Hl|Hl].
    + by rewrite decide_True by by right.
    + destruct (decide (p = k)) as [->|Hne].
      * rewrite lookup_insert_eq. by rewrite decide_True by left.
      * rewrite lookup_insert_ne by done.
        rewrite decide_False; [done|]. by intros [?|?]%elem_of_cons.
Qed.

Lemma elem_of_keys {V} (m : gmap string V) (p : string) :
  p ∈ keys m ↔ is_Some (m !! p).
Proof.
  unfold keys. rewrite list_elem_of_fmap. split.
  - intros [[k v] [-> Hkv]]. apply elem_of_map_to_list in Hkv. by exists v.
  - intros [v Hv]. exists (p, v). split; [done|]. by apply elem_of_map_to_list.
Qed.

Lemma elem_of_keys_dom {V} (m : gmap string V) (p : string) :
  p ∈ keys m ↔ p ∈ dom m.
Proof. by rewrite elem_of_keys, elem_of_dom. Qed.

Lemma NoDup_keys {V} (m : gmap string V) : NoDup (keys m).
Proof. apply NoDup_fst_map_to_list. Qed.

Lemma length_keys {V} (m : gmap string V) : length (keys m) = size m.
Proof. unfold keys. by rewrite length_fmap, length_map_to_list. Qed.

Lemma Qc_of_nat_0 (n : nat) : Qc_of_nat n = 0 ↔ n = 0%nat.
Proof.
  unfold Qc_of_nat. rewrite <- Z2Qc_inj_0, Z2Qc_inj_iff. lia.
Qed.

Lemma Qc_of_nat_pos (n : nat) : n ≠ 0%nat → 0 < Qc_of_nat n.
Proof.
  intros Hn. unfold Qc_of_nat. rewrite <- Z2Qc_inj_0.
  apply (proj1 (Z2Qc_inj_lt 0 (Z.of_nat n))). lia.
Qed.

Lemma Qc_of_nat_S (n : nat) : Qc_of_nat (S n) = Qc_of_nat n + 1.
Proof.
  unfold Qc_of_nat. rewrite Nat2Z.inj_succ, <- Z.add_1_r, Z2Qc_inj_add.
  by rewrite Z2Qc_inj_1.
Qed.

Lemma size_graph_ne_0 (g : gmap string (gset string)) : g ≠ ∅ → size g ≠ 0%nat.
Proof. intros Hg Hs. by apply map_size_empty_iff in Hs. Qed.

Lemma set_len_ne_0 (links : gset string) (p : string) :
  p ∈ links → set_len links ≠ 0.
Proof.
  intros Hp Hz. apply Qc_of_nat_0, size_empty_iff in Hz. set_solver.
Qed.

(** The dict comprehension [{key: v for key in corpus}]. *)
Lemma const_dict_lookup (g : gmap string (gset string)) (v : Qc) (p : string) :
  foldl (λ s k, <[k := v]> s) (∅ : gmap string Qc) (keys g) !! p
  = if decide (p ∈ dom g) then Some v else None.
Proof.
  rewrite (lookup_foldl_insert (λ _, v)), lookup_empty.
  destruct (decide (p ∈ keys g)) as [H|H]; rewrite elem_of_keys_dom in H.
  - by rewrite decide_True.
  - by rewrite decide_False.
Qed.

Lemma const_dict_fmap (g : gmap string (gset string)) (v : Qc) :
  foldl (λ s k, <[k := v]> s) (∅ : gmap string Qc) (keys g) = (λ _, v) <$> g.
Proof.
  apply map_eq. intros p. rewrite const_dict_lookup, lookup_fmap.
  destruct (decide (p ∈ dom g)) as [H|H].
  - apply elem_of_dom in H as [x ->]. done.
  - apply not_elem_of_dom in H. by rewrite H.
Qed.

Lemma keys_fmap {A B} (f : A → B) (m : gmap string A) : keys (f <$> m) = keys m.
Proof.
  unfold keys. rewrite map_to_list_fmap, <- list_fmap_compose.
  apply list_fmap_ext. by intros ? [].
Qed.

Lemma bind_Ret {A B} (m : M A) (k : A → M B) (w w' : world) (a : A) :
  m w = (Ret a, w') → bind m k w = k a w'.
Proof. unfold bind. by intros ->. Qed.

Lemma bind_Raise {A B} (m : M A) (k : A → M B) (w w' : world) (e : pyexn) :
  m w = (Raise e, w') → bind m k w = (Raise e, w').
Proof. unfold bind. by intros ->. Qed.

Lemma py_div_Ret (x y : Qc) (w : world) : y ≠ 0 → py_div x y w = (Ret (x / y), w).
Proof. intros Hy. unfold py_div. by rewrite decide_False. Qed.

Lemma dict_get_Ret {V} (d : gmap string V) (k : string) (v : V) (w : world) :
  d !! k = Some v → dict_get d k w = (Ret v, w).
Proof. unfold dict_get. by intros ->. Qed.

Lemma corpus_get_Ret (k : string) (links : gset string) (w : world) :
  graph_obj w !! k = Some links → corpus_get k w = (Ret links, w).
Proof. unfold corpus_get. apply dict_get_Ret. Qed.

(** ** Arithmetic on [Qc] through [Q] *)

Lemma Qc_inv_nonneg (y : Qc) : 0 ≤ y → 0 ≤ 1 / y.
Proof.
  intros Hy. qc_to_q. rewrite Qmult_1_l. by apply Qinv_le_0_compat.
Qed.

Lemma Qc_div_nonneg (x y : Qc) : 0 ≤ x → 0 ≤ y → 0 ≤ x / y.
Proof.
  intros Hx Hy. unfold Qcdiv. apply Qcmult_nonneg_nonneg; [done|].
  apply Qc_inv_nonneg in Hy. unfold Qcdiv in Hy. by rewrite Qcmult_1_l in Hy.
Qed.

Lemma Qc_div_pos (x y : Qc) : 0 < x → 0 < y → 0 < x / y.
Proof.
  intros Hx Hy. unfold Qcdiv. apply Qcmult_pos_pos; [done|].
  qc_to_q. by apply Qinv_lt_0_compat.
Qed.

Lemma Qc_of_nat_nonneg (n : nat) : 0 ≤ Qc_of_nat n.
Proof.
  unfold Qc_of_nat. rewrite <- Z2Qc_inj_0.
  apply (proj1 (Z2Qc_inj_le 0 (Z.of_nat n))). lia.
Qed.

Lemma Qc_of_nat_le (n m : nat) : (n ≤ m)%nat → Qc_of_nat n ≤ Qc_of_nat m.
Proof.
  intros H. unfold Qc_of_nat.
  apply (proj1 (Z2Qc_inj_le (Z.of_nat n) (Z.of_nat m))). lia.
Qed.

Lemma Qc_ratio_le_1 (x y : Qc) : 0 < y → x ≤ y → x * (1 / y) ≤ 1.
Proof.
  intros Hy Hxy. qc_to_q. rewrite Qmult_1_l.
  apply Qle_shift_div_r; [done|]. by rewrite Qmult_1_l.
Qed.

Lemma Qc_mul_inv_self (y : Qc) : y ≠ 0 → y * (1 / y) = 1.
Proof. intros Hy. field. done. Qed.

(** ** Finite sums *)

Section Qsum.
Context {A : Type}.
Implicit Types (f h : A → Qc) (l : list A).

Lemma Qsum_cons f x l : Qsum f (x :: l) = f x + Qsum f l.
Proof. reflexivity. Qed.

Lemma Qsum_ext f h l : (∀ x, x ∈ l → f x = h x) → Qsum f l = Qsum h l.
Proof.
  induction l as [|x l IH]; intros Hfh; [done|].
  rewrite !Qsum_cons, IH, (Hfh x); [done|left|].
  intros y Hy. apply Hfh. by right.
Qed.

Lemma Qsum_nonneg f l : (∀ x, x ∈ l → 0 ≤ f x) → 0 ≤ Qsum f l.
Proof.
  induction l as [|x l IH]; intros Hf; [done|].
  rewrite Qsum_cons. apply Qcplus_nonneg_nonneg; [apply Hf; left|].
  apply IH. intros y Hy. apply Hf. by right.
Qed.

Lemma Qsum_le f h l : (∀ x, x ∈ l → f x ≤ h x) → Qsum f l ≤ Qsum h l.
Proof.
  induction l as [|x l IH]; intros Hfh; [done|].
  rewrite !Qsum_cons. apply Qcplus_le_compat; [apply Hfh; left|].
  apply IH. intros y Hy. apply Hfh. by right.
Qed.

Lemma Qsum_plus f h l : Qsum (λ x, f x + h x) l = Qsum f l + Qsum h l.
Proof.
  induction l as [|x l IH]; [by rewrite Qcplus_0_l|].
  rewrite !Qsum_cons, IH. ring.
Qed.

Lemma Qsum_minus f h l : Qsum (λ x, f x - h x) l = Qsum f l - Qsum h l.
Proof.
  induction l as [|x l IH]; [cbn; ring|].
  rewrite !Qsum_cons, IH. ring.
Qed.

Lemma Qsum_scale (c : Qc) f l : Qsum (λ x, c * f x) l = c * Qsum f l.
Proof.
  induction l as [|x l IH]; [cbn; ring|].
  rewrite !Qsum_cons, IH. ring.
Qed.

Lemma Qsum_const (c : Qc) l : Qsum (λ _, c) l = Qc_of_nat (length l) * c.
Proof.
  induction l as [|x l IH].
  - cbn [Qsum foldr length filter]. rewrite (proj2 (Qc_of_nat_0 0)); [ring|done].
  - rewrite Qsum_cons, IH. cbn [length]. rewrite Qc_of_nat_S. ring.
Qed.

Lemma Qsum_filter (c : Qc) (P : A → Prop) `{∀ x, Decision (P x)} l :
  Qsum (λ x, if decide (P x) then c else 0) l
  = Qc_of_nat (length (filter P l)) * c.
Proof.
  induction l as [|x l IH].
  - rewrite filter_nil. cbn [Qsum foldr length]. rewrite (proj2 (Qc_of_nat_0 0)); [ring|done].
  - rewrite Qsum_cons, IH, filter_cons.
    destruct (decide (P x)); [|ring].
    cbn [length]. rewrite Qc_of_nat_S. ring.
Qed.

Lemma Qsum_abs f l : Qcabs (Qsum f l) ≤ Qsum (λ x, Qcabs (f x)) l.
Proof.
  induction l as [|x l IH]; [done|].
  rewrite !Qsum_cons. etrans; [apply Qcabs_triangle|].
  by apply Qcplus_le_compat.
Qed.

Lemma Qsum_elem_le f l x : (∀ y, y ∈ l → 0 ≤ f y) → x ∈ l → f x ≤ Qsum f l.
Proof.
  induction l as [|y l IH]; intros Hf Hx; [by apply not_elem_of_nil in Hx|].
  rewrite Qsum_cons. apply elem_of_cons in Hx as [->|Hx].
  - rewrite <- (Qcplus_0_r (f y)) at 1. apply Qcplus_le_compat; [done|].
    apply Qsum_nonneg. intros z Hz. apply Hf. by right.
  - rewrite <- (Qcplus_0_l (f x)). apply Qcplus_le_compat; [apply Hf; left|].
    apply IH; [|done]. intros z Hz. apply Hf. by right.
Qed.

Lemma Qsum_zero_inv f l x :
  (∀ y, y ∈ l → 0 ≤ f y) → Qsum f l = 0 → x ∈ l → f x = 0.
Proof.
  intros Hf Hz Hx. apply (anti_symm Qcle); [|by apply Hf].
  rewrite <- Hz. by apply Qsum_elem_le.
Qed.

Lemma Qsum_perm f l l' : l ≡ₚ l' → Qsum f l = Qsum f l'.
Proof.
  induction 1 as [|x l l' _ IH|x y l|l l' l'' _ IH1 _ IH2]; [done|..].
  - by rewrite !Qsum_cons, IH.
  - rewrite !Qsum_cons. ring.
  - by rewrite IH1.
Qed.
End Qsum.

Lemma Qsum_swap {A B} (f : A → B → Qc) (l1 : list A) (l2 : list B) :
  Qsum (λ x, Qsum (f x) l2) l1 = Qsum (λ y, Qsum (λ x, f x y) l1) l2.
Proof.
  induction l1 as [|x l1 IH].
  - cbn [Qsum foldr]. fold (Qsum (λ _ : B, 0) l2). rewrite Qsum_const. ring.
  - rewrite Qsum_cons, IH, <- Qsum_plus. by apply Qsum_ext.
Qed.

(** ** The transition model *)

Lemma dom_tm_step (links : gset string) (d : Qc) (s : gmap string Qc) (web : string) :
  web ∈ dom s → dom (tm_step links d s web) = dom s.
Proof.
  intros Hweb. unfold tm_step. case_decide; [|done].
  rewrite dom_insert_L. apply (anti_symm (⊆)).
  - apply union_least; [by apply singleton_subseteq_l|done].
  - apply union_subseteq_r.
Qed.

Lemma lookup_foldl_tm_step (links : gset string) (d : Qc) (l : list string)
    (s : gmap string Qc) (p : string) :
  NoDup l →
  foldl (tm_step links d) s l !! p
  = if decide (p ∈ l ∧ p ∈ links)
    then Some (default 0 (s !! p) + d / set_len links)
    else s !! p.
Proof.
  intros Hl. revert s. induction Hl as [|k l Hk Hl IH]; intros s; cbn [foldl].
  - rewrite decide_False; [done|]. intros [H _]. by apply not_elem_of_nil in H.
  - rewrite IH. destruct (decide (p = k)) as [->|Hne].
    + rewrite (decide_False (P := k ∈ l ∧ _)) by by intros [? _].
      unfold tm_step. destruct (decide (k ∈ links)) as [Hin|Hin].
      * rewrite lookup_insert_eq. rewrite decide_True; [done|].
        split; [left|done].
      * rewrite decide_False; [done|]. by intros [_ ?].
    + assert (tm_step links d s k !! p = s !! p) as ->.
      { unfold tm_step. destruct (decide (k ∈ links)); [|done].
        by rewrite lookup_insert_ne. }
      destruct (decide (p ∈ l ∧ p ∈ links)) as [[H1 H2]|Hn].
      * rewrite decide_True; [done|]. split; [by right|done].
      * rewrite decide_False; [done|].
        intros [[?|?]%elem_of_cons ?]; [done|]. by apply Hn.
Qed.

Lemma transition_model_run (w : world) (page : string) (d : Qc)
    (links : gset string) :
  graph_obj w !! page = Some links →
  ∃ solution,
    transition_model page d w = (Ret solution, bump_tm w)
    ∧ ∀ p, solution !! p
           = if decide (p ∈ dom (graph_obj w))
             then Some ((1 - d) / Qc_of_nat (size (graph_obj w))
                        + if decide (p ∈ links) then d / set_len links else 0)
             else None.
Proof.
  intros Hpage. set (g := graph_obj w).
  set (rf := (1 - d) / Qc_of_nat (size g)).
  assert (size g ≠ 0%nat) as Hsize.
  { apply size_graph_ne_0. intros Hg. subst g. by rewrite Hg in Hpage. }
  assert (graph_obj (bump_tm w) = g) as Hg' by done.
  unfold transition_model.
  rewrite (bind_Ret _ _ w (bump_tm w) ()) by done.
  rewrite (bind_Ret _ _ _ (bump_tm w) (Qc_of_nat (size g))) by done.
  rewrite (bind_Ret _ _ _ (bump_tm w) rf)
    by (apply py_div_Ret; by rewrite Qc_of_nat_0).
  rewrite (bind_Ret _ _ _ (bump_tm w) (keys g)) by done.
  destruct (for_each_pure (St := gmap string Qc)
              (λ _, True) (λ s k, <[k := rf]> s) (keys g)
              (λ key solution, ret (<[key := rf]> solution)) ∅ (bump_tm w))
    as [Hinit _]; [done|done|].
  rewrite (bind_Ret _ _ _ _ _ Hinit), const_dict_fmap, keys_fmap.
  destruct (for_each_pure (λ s : gmap string Qc, dom s = dom g)
              (tm_step links d) (keys g)
              (λ web solution,
                 links <~ corpus_get page ;;
                 if decide (web ∈ links) then
                   cur <~ dict_get solution web ;;
                   links' <~ corpus_get page ;;
                   inc <~ py_div d (set_len links') ;;
                   ret (<[web := cur + inc]> solution)
                 else ret solution)
              ((λ _, rf) <$> g) (bump_tm w)) as [Hloop _].
  { apply dom_fmap_L. }
  { intros web s Hweb Hs.
    assert (web ∈ dom s) as Hin by (by rewrite Hs, <- elem_of_keys_dom).
    split; [|by rewrite dom_tm_step].
    rewrite (bind_Ret _ _ _ (bump_tm w) links) by by apply corpus_get_Ret.
    unfold tm_step. destruct (decide (web ∈ links)) as [Hl|Hl]; [|done].
    apply elem_of_dom in Hin as [cur Hcur].
    rewrite (bind_Ret _ _ _ (bump_tm w) cur) by by apply dict_get_Ret.
    rewrite (bind_Ret _ _ _ (bump_tm w) links) by by apply corpus_get_Ret.
    rewrite (bind_Ret _ _ _ (bump_tm w) (d / set_len links))
      by (apply py_div_Ret; by eapply set_len_ne_0).
    by rewrite Hcur. }
  eexists. split; [exact Hloop|]. intros p.
  rewrite lookup_foldl_tm_step by apply NoDup_keys.
  rewrite lookup_fmap.
  destruct (decide (p ∈ dom g)) as [Hp|Hp].
  - pose proof Hp as Hk. apply elem_of_keys_dom in Hk.
    apply elem_of_dom in Hp as [x Hx]. rewrite Hx. cbn.
    destruct (decide (p ∈ links)) as [Hl|Hl].
    + by rewrite decide_True.
    + rewrite decide_False by (by intros [_ ?]). f_equal. ring.
  - rewrite decide_False by (rewrite elem_of_keys_dom; by intros [? _]).
    apply not_elem_of_dom in Hp. by rewrite Hp.
Qed.

(** ** One update round of the iterative estimator *)

Lemma foldl_add_Qsum {A} (f : A → Qc) (l : list A) (a : Qc) :
  foldl (λ acc x, acc + f x) a l = a + Qsum f l.
Proof.
  revert a. induction l as [|x l IH]; intros a; cbn [foldl Qsum foldr].
  - ring.
  - rewrite IH. fold (Qsum f l). ring.
Qed.

Section round.
Context (w : world) (old : gmap string Qc).
Let g := graph_obj w.
Hypothesis Hg : g ≠ ∅.
Hypothesis Hdom : dom old = dom g.

Lemma inbound_step_run (page web : string) (addition : Qc) :
  web ∈ keys g →
  inbound_step old page web addition w
  = (Ret (addition + contribution g old page web), w).
Proof.
  intros Hweb. apply elem_of_keys_dom in Hweb.
  assert (is_Some (old !! web)) as [o Ho] by (by rewrite <- elem_of_dom, Hdom).
  apply elem_of_dom in Hweb as [links Hlinks].
  assert (Qc_of_nat (size g) ≠ 0) as HN.
  { rewrite Qc_of_nat_0. by apply size_graph_ne_0. }
  unfold inbound_step, contribution, rank_of. fold g. rewrite Hlinks, Ho. cbn.
  rewrite (bind_Ret _ _ _ w links) by by apply corpus_get_Ret.
  destruct (decide (page ∈ links)) as [Hin|Hin].
  - rewrite (bind_Ret _ _ _ w (addition + o / set_len links)).
    2:{ rewrite (bind_Ret _ _ _ w o) by by apply dict_get_Ret.
        rewrite (bind_Ret _ _ _ w links) by by apply corpus_get_Ret.
        rewrite (bind_Ret _ _ _ w (o / set_len links)); [done|].
        apply py_div_Ret. by eapply set_len_ne_0. }
    rewrite (bind_Ret _ _ _ w links) by by apply corpus_get_Ret.
    destruct (decide (links = ∅)) as [->|Hne];
      [by apply not_elem_of_empty in Hin|].
    unfold ret. do 2 f_equal. ring.
  - rewrite (bind_Ret _ _ _ w addition) by done.
    rewrite (bind_Ret _ _ _ w links) by by apply corpus_get_Ret.
    destruct (decide (links = ∅)) as [Hemp|Hemp].
    + rewrite (bind_Ret _ _ _ w o) by by apply dict_get_Ret.
      rewrite (bind_Ret _ _ _ w (Qc_of_nat (size g))) by done.
      rewrite (bind_Ret _ _ _ w (o / Qc_of_nat (size g)))
        by by apply py_div_Ret.
      unfold ret. do 2 f_equal. ring.
    + unfold ret. do 2 f_equal. ring.
Qed.

Lemma inbound_sum_run (page : string) :
  inbound_sum old page w = (Ret (spec_addition' g old page), w).
Proof.
  unfold inbound_sum.
  rewrite (bind_Ret _ _ _ w (keys g)) by done.
  destruct (for_each_pure (λ _, True)
              (λ acc web, acc + contribution g old page web)
              (keys g) (inbound_step old page) 0 w) as [Hloop _]; [done| |].
  { intros web acc Hweb _. split; [|done]. by apply inbound_step_run. }
  rewrite (bind_Ret _ _ _ _ _ Hloop), foldl_add_Qsum, Qcplus_0_l.
  unfold spec_addition'. fold (spec_addition g old page).
  destruct (decide (spec_addition g old page = 0)); [|done].
  rewrite (bind_Ret _ _ _ w (Qc_of_nat (size g))) by done.
  apply py_div_Ret. rewrite Qc_of_nat_0. by apply size_graph_ne_0.
Qed.

Lemma update_round_run (d rf : Qc) (new : gmap string Qc) :
  ∃ new',
    update_round d rf old new w = (Ret new', w)
    ∧ ∀ p, new' !! p
           = if decide (p ∈ dom g)
             then Some (rf + d * spec_addition' g old p)
             else new !! p.
Proof.
  unfold update_round.
  destruct (for_each_pure (λ _, True)
              (λ (s : gmap string Qc) page,
                 <[page := rf + d * spec_addition' g old page]> s)
              (keys old)
              (λ page new_pagerank,
                 addition <~ inbound_sum old page ;;
                 ret (<[page := rf + d * addition]> new_pagerank))
              new w) as [Hloop _]; [done| |].
  { intros page s _ _. split; [|done].
    by rewrite (bind_Ret _ _ _ _ _ (inbound_sum_run page)). }
  eexists. split; [exact Hloop|]. intros p.
  rewrite (lookup_foldl_insert (λ page, rf + d * spec_addition' g old page)).
  destruct (decide (p ∈ dom g)) as [Hp|Hp].
  - rewrite decide_True; [done|]. by rewrite elem_of_keys_dom, Hdom.
  - rewrite decide_False; [done|]. by rewrite elem_of_keys_dom, Hdom.
Qed.
End round.

(** ** The loop of the iterative estimator *)

Lemma py_all_pure {A} (t : A → bool) (l : list A) (test : A → M bool) (w : world) :
  (∀ x, x ∈ l → test x w = (Ret (t x), w)) →
  py_all l test w = (Ret (forallb t l), w).
Proof.
  induction l as [|x l IH]; intros Htest; [done|].
  cbn [py_all forallb].
  rewrite (bind_Ret _ _ _ w (t x)) by (apply Htest; left).
  destruct (t x); [|done]. apply IH. intros y Hy. apply Htest. by right.
Qed.

Lemma lookup_next_ranks (g : gmap string (gset string)) (d : Qc)
    (old : gmap string Qc) (p : string) :
  next_ranks g d old !! p
  = if decide (p ∈ dom g) then Some (spec_new_rank g d old p) else None.
Proof.
  unfold next_ranks. rewrite map_lookup_imap.
  destruct (decide (p ∈ dom g)) as [Hp|Hp].
  - apply elem_of_dom in Hp as [x ->]. done.
  - apply not_elem_of_dom in Hp. by rewrite Hp.
Qed.

Lemma dom_next_ranks (g : gmap string (gset string)) (d : Qc)
    (old : gmap string Qc) :
  dom (next_ranks g d old) = dom g.
Proof.
  apply set_eq. intros p. rewrite !elem_of_dom, lookup_next_ranks.
  destruct (decide (p ∈ dom g)) as [Hp|Hp].
  - split; [intros _; by apply elem_of_dom|by eexists].
  - split; [by intros [? ?]|]. intros H. by apply elem_of_dom in H.
Qed.

Lemma dom_initial_ranks (g : gmap string (gset string)) :
  dom (initial_ranks g) = dom g.
Proof. apply dom_fmap_L. Qed.

Lemma dom_ranks_at (g : gmap string (gset string)) (d : Qc) (k : nat) :
  dom (ranks_at g d k) = dom g.
Proof.
  destruct k; [apply dom_initial_ranks|]. cbn. apply dom_next_ranks.
Qed.

Lemma update_round_next (w : world) (d : Qc) (old new : gmap string Qc) :
  graph_obj w ≠ ∅ →
  dom old = dom (graph_obj w) →
  dom new = dom (graph_obj w) →
  update_round d ((1 - d) / Qc_of_nat (size (graph_obj w))) old new w
  = (Ret (next_ranks (graph_obj w) d old), w).
Proof.
  intros Hg Hold Hnew.
  destruct (update_round_run w old Hg Hold d
              ((1 - d) / Qc_of_nat (size (graph_obj w))) new) as (new' & -> & Hl).
  do 2 f_equal. apply map_eq. intros p. rewrite Hl, lookup_next_ranks.
  destruct (decide (p ∈ dom (graph_obj w))) as [Hp|Hp]; [done|].
  apply not_elem_of_dom. by rewrite Hnew.
Qed.

Lemma convergence_test_run (w : world) (old new : gmap string Qc) :
  dom old = dom new →
  convergence_test old new w = (Ret (converged old new), w).
Proof.
  intros Hdom. unfold convergence_test, converged.
  apply py_all_pure. intros p Hp.
  apply elem_of_keys_dom in Hp. pose proof Hp as Hp'. rewrite <- Hdom in Hp'.
  apply elem_of_dom in Hp as [n Hn]. apply elem_of_dom in Hp' as [o Ho].
  rewrite (bind_Ret _ _ _ w n) by by apply dict_get_Ret.
  rewrite (bind_Ret _ _ _ w o) by by apply dict_get_Ret.
  unfold rank_of. by rewrite Hn, Ho.
Qed.

Lemma iterate_loop_unfold (w : world) (g : gmap string (gset string))
    (fuel : nat) (d : Qc) (old new : gmap string Qc) :
  graph_obj w = g → g ≠ ∅ → dom old = dom g → dom new = dom g →
  iterate_loop (S fuel) d ((1 - d) / Qc_of_nat (size g)) old new w
  = if converged old (next_ranks g d old)
    then (Ret (next_ranks g d old), w)
    else iterate_loop fuel d ((1 - d) / Qc_of_nat (size g))
           (next_ranks g d old) (next_ranks g d old) w.
Proof.
  intros <- Hg Hold Hnew. cbn [iterate_loop].
  rewrite (bind_Ret _ _ _ _ _ (update_round_next w d old new Hg Hold Hnew)).
  rewrite (bind_Ret _ _ _ w (converged old (next_ranks (graph_obj w) d old))).
  2:{ apply convergence_test_run. by rewrite dom_next_ranks. }
  by destruct (converged old (next_ranks (graph_obj w) d old)).
Qed.

Lemma iterate_pagerank_unfold (w : world) (g : gmap string (gset string))
    (fuel : nat) (d : Qc) :
  graph_obj w = g → g ≠ ∅ →
  iterate_pagerank fuel d w
  = iterate_loop fuel d ((1 - d) / Qc_of_nat (size g))
      (initial_ranks g) ((λ _, 0) <$> g) w.
Proof.
  intros Hw Hg. unfold iterate_pagerank.
  assert (Qc_of_nat (size g) ≠ 0) as HN.
  { rewrite Qc_of_nat_0. by apply size_graph_ne_0. }
  rewrite (bind_Ret _ _ _ w (keys g)) by (by subst g).
  destruct (for_each_pure (St := gmap string Qc) (λ _, True)
              (λ s k, <[k := 1 / Qc_of_nat (size g)]> s) (keys g)
              (λ key old_pagerank,
                 n <~ corpus_len ;;
                 v <~ py_div 1 n ;;
                 ret (<[key := v]> old_pagerank)) ∅ w) as [Hold _]; [done| |].
  { intros key s _ _. split; [|done].
    rewrite (bind_Ret _ _ _ w (Qc_of_nat (size g))) by (by subst g).
    by rewrite (bind_Ret _ _ _ w (1 / Qc_of_nat (size g)))
      by by apply py_div_Ret. }
  rewrite (bind_Ret _ _ _ _ _ Hold), const_dict_fmap.
  rewrite (bind_Ret _ _ _ w (keys g)) by (by subst g).
  destruct (for_each_pure (St := gmap string Qc) (λ _, True)
              (λ s k, <[k := 0]> s) (keys g)
              (λ key new_pagerank, ret (<[key := 0]> new_pagerank)) ∅ w)
    as [Hnew _]; [done|done|].
  rewrite (bind_Ret _ _ _ _ _ Hnew), const_dict_fmap.
  rewrite (bind_Ret _ _ _ w (Qc_of_nat (size g))) by (by subst g).
  by rewrite (bind_Ret _ _ _ w ((1 - d) / Qc_of_nat (size g)))
    by by apply py_div_Ret.
Qed.

(** If round [k] passes the convergence test, the loop returns within
    [S k] rounds, at the first round that passes it. *)
Lemma iterate_loop_returns (w : world) (g : gmap string (gset string))
    (d : Qc) (k : nat) :
  graph_obj w = g → g ≠ ∅ →
  ∀ old new, dom old = dom g → dom new = dom g →
  converged (Nat.iter k (next_ranks g d) old)
            (Nat.iter (S k) (next_ranks g d) old) = true →
  ∃ j, (j ≤ k)%nat
    ∧ iterate_loop (S k) d ((1 - d) / Qc_of_nat (size g)) old new w
      = (Ret (Nat.iter (S j) (next_ranks g d) old), w)
    ∧ converged (Nat.iter j (next_ranks g d) old)
                (Nat.iter (S j) (next_ranks g d) old) = true.
Proof.
  intros Hw Hg. induction k as [|k IH]; intros old new Hold Hnew Hconv.
  - exists 0%nat. split; [lia|]. split; [|exact Hconv].
    rewrite (iterate_loop_unfold w g _ _ _ _ Hw Hg Hold Hnew).
    change (Nat.iter 1 (next_ranks g d) old) with (next_ranks g d old) in *.
    change (Nat.iter 0 (next_ranks g d) old) with old in Hconv.
    rewrite Hconv. reflexivity.
  - rewrite (iterate_loop_unfold w g _ _ _ _ Hw Hg Hold Hnew).
    destruct (converged old (next_ranks g d old)) eqn:Hnow.
    + exists 0%nat. split; [lia|]. split; [reflexivity|exact Hnow].
    + destruct (IH (next_ranks g d old) (next_ranks g d old))
        as (j & Hj & Hrun & Hc).
      { apply dom_next_ranks. }
      { apply dom_next_ranks. }
      { rewrite <- (Nat.iter_succ_r k), <- (Nat.iter_succ_r (S k)).
        exact Hconv. }
      exists (S j). split; [lia|].
      rewrite (Nat.iter_succ_r j), (Nat.iter_succ_r (S j)).
      split; [exact Hrun|exact Hc].
Qed.

(** ** The update round is a contraction *)

Section contraction.
Context (g : gmap string (gset string)).
Hypothesis Hg : g ≠ ∅.

Local Abbreviation N := (Qc_of_nat (size g)).

Lemma N_pos : 0 < N.
Proof. apply Qc_of_nat_pos. by apply size_graph_ne_0. Qed.

Lemma N_ne_0 : N ≠ 0.
Proof. rewrite Qc_of_nat_0. by apply size_graph_ne_0. Qed.

Lemma contribution_weight (r : gmap string Qc) (p w : string) :
  contribution g r p w = rank_of r w * link_weight g p w.
Proof.
  unfold contribution, link_weight. cbn zeta.
  destruct (decide (p ∈ default ∅ (g !! w)));
    destruct (decide (default ∅ (g !! w) = ∅)); unfold Qcdiv; ring.
Qed.

Lemma link_weight_nonneg (p w : string) : 0 ≤ link_weight g p w.
Proof.
  unfold link_weight. cbn zeta. apply Qcplus_nonneg_nonneg.
  - destruct (decide (p ∈ default ∅ (g !! w))); [|done].
    apply Qc_inv_nonneg, Qc_of_nat_nonneg.
  - destruct (decide (default ∅ (g !! w) = ∅)); [|done].
    apply Qc_inv_nonneg, Qc_of_nat_nonneg.
Qed.

Lemma inbound_count (links : gset string) :
  (length (filter (λ p, p ∈ links) (keys g)) ≤ size links)%nat.
Proof.
  change (size links) with (length (elements links)).
  apply submseteq_length, NoDup_submseteq.
  - apply NoDup_filter, NoDup_keys.
  - intros p [Hp _]%list_elem_of_filter. by apply elem_of_elements.
Qed.

(** What a page hands out in a round does not exceed its rank. *)
Lemma link_weight_column (w : string) :
  Qsum (λ p, link_weight g p w) (keys g) ≤ 1.
Proof.
  unfold link_weight. cbn zeta. set (links := default ∅ (g !! w)).
  rewrite Qsum_plus, Qsum_const, length_keys.
  rewrite (Qsum_filter (1 / set_len links) (λ p, p ∈ links)).
  destruct (decide (links = ∅)) as [Hl|Hl].
  - rewrite Hl. unfold set_len. rewrite size_empty.
    rewrite (proj2 (Qc_of_nat_0 0)) by done.
    rewrite Qc_mul_inv_self by apply N_ne_0.
    replace (1 / 0) with (Q2Qc 0) by (by apply Qc_is_canon).
    rewrite Qcmult_0_r, Qcplus_0_l. done.
  - rewrite Qcmult_0_r, Qcplus_0_r. apply Qc_ratio_le_1.
    + apply Qc_of_nat_pos. intros Hs. apply Hl.
      by apply leibniz_equiv, size_empty_iff.
    + apply Qc_of_nat_le, inbound_count.
Qed.

Lemma spec_addition_weights (r : gmap string Qc) (p : string) :
  spec_addition g r p = Qsum (λ w, rank_of r w * link_weight g p w) (keys g).
Proof.
  unfold spec_addition. apply Qsum_ext. intros w _.
  apply contribution_weight.
Qed.

Lemma spec_addition_nonneg (r : gmap string Qc) (p : string) :
  (∀ w, w ∈ keys g → 0 ≤ rank_of r w) → 0 ≤ spec_addition g r p.
Proof.
  intros Hr. rewrite spec_addition_weights. apply Qsum_nonneg. intros w Hw.
  apply Qcmult_nonneg_nonneg; [by apply Hr|apply link_weight_nonneg].
Qed.

Lemma spec_addition'_nonneg (r : gmap string Qc) (p : string) :
  (∀ w, w ∈ keys g → 0 ≤ rank_of r w) → 0 ≤ spec_addition' g r p.
Proof.
  intros Hr. unfold spec_addition'.
  destruct (decide (spec_addition g r p = 0)).
  - apply Qc_inv_nonneg, Qc_of_nat_nonneg.
  - by apply spec_addition_nonneg.
Qed.

(** With positive ranks, the addition of [p] is zero exactly when no
    page hands anything to [p]: a property of the graph alone. *)
Lemma spec_addition_zero_weights (r : gmap string Qc) (p w : string) :
  positive_on g r → spec_addition g r p = 0 → w ∈ keys g →
  link_weight g p w = 0.
Proof.
  intros Hr Hz Hw. rewrite spec_addition_weights in Hz.
  eapply (Qsum_zero_inv _ _ w) in Hz; [|intros y Hy|done].
  - apply Qcmult_integral in Hz as [Hz|Hz]; [|done].
    specialize (Hr w Hw). rewrite Hz in Hr. by apply Qclt_not_eq in Hr.
  - apply Qcmult_nonneg_nonneg; [|apply link_weight_nonneg].
    by apply Qclt_le_weak, Hr.
Qed.

Lemma spec_addition_zero_transfer (x y : gmap string Qc) (p : string) :
  positive_on g x → spec_addition g x p = 0 → spec_addition g y p = 0.
Proof.
  intros Hx Hz. rewrite spec_addition_weights.
  rewrite (Qsum_ext _ (λ _, 0)).
  - rewrite Qsum_const. ring.
  - intros w Hw. rewrite (spec_addition_zero_weights x p w) by done. ring.
Qed.

Lemma spec_addition'_diff (x y : gmap string Qc) (p : string) :
  positive_on g x → positive_on g y →
  spec_addition' g x p - spec_addition' g y p
  = Qsum (λ w, (rank_of x w - rank_of y w) * link_weight g p w) (keys g).
Proof.
  intros Hx Hy. unfold spec_addition'.
  destruct (decide (spec_addition g x p = 0)) as [Hzx|Hzx].
  - rewrite (decide_True (P := spec_addition g y p = 0))
      by by apply (spec_addition_zero_transfer x).
    rewrite (Qsum_ext _ (λ _, 0)).
    + rewrite Qsum_const. ring.
    + intros w Hw. rewrite (spec_addition_zero_weights x p w) by done. ring.
  - rewrite (decide_False (P := spec_addition g y p = 0)).
    2:{ intros Hzy. apply Hzx. by apply (spec_addition_zero_transfer y). }
    rewrite !spec_addition_weights, <- Qsum_minus.
    apply Qsum_ext. intros w _. ring.
Qed.

Lemma rank_of_next_ranks (d : Qc) (r : gmap string Qc) (p : string) :
  p ∈ keys g → rank_of (next_ranks g d r) p = spec_new_rank g d r p.
Proof.
  intros Hp. unfold rank_of. rewrite lookup_next_ranks.
  rewrite decide_True; [done|]. by apply elem_of_keys_dom.
Qed.

Lemma next_ranks_contract (d : Qc) (x y : gmap string Qc) :
  0 ≤ d → positive_on g x → positive_on g y →
  dist g (next_ranks g d x) (next_ranks g d y) ≤ d * dist g x y.
Proof.
  intros Hd Hx Hy. unfold dist.
  trans (Qsum (λ p, d * Qsum (λ w, Qcabs (rank_of x w - rank_of y w)
                                   * link_weight g p w) (keys g)) (keys g)).
  { apply Qsum_le. intros p Hp. rewrite !rank_of_next_ranks by done.
    unfold spec_new_rank.
    replace ((1 - d) / N + d * spec_addition' g x p
             - ((1 - d) / N + d * spec_addition' g y p))
      with (d * (spec_addition' g x p - spec_addition' g y p)) by ring.
    rewrite Qcabs_Qcmult, (Qcabs_pos d) by done.
    apply Qcmult_le_mono_nonneg_l; [done|].
    rewrite spec_addition'_diff by done.
    etrans; [apply Qsum_abs|]. apply Qsum_le. intros w _.
    rewrite Qcabs_Qcmult, (Qcabs_pos (link_weight g p w)); [done|].
    apply link_weight_nonneg. }
  rewrite Qsum_scale. apply Qcmult_le_mono_nonneg_l; [done|].
  rewrite Qsum_swap. apply Qsum_le. intros w Hw.
  rewrite Qsum_scale.
  rewrite <- (Qcmult_1_r (Qcabs (rank_of x w - rank_of y w))) at 2.
  apply Qcmult_le_mono_nonneg_l; [apply Qcabs_nonneg|].
  apply link_weight_column.
Qed.

Lemma spec_new_rank_lower (d : Qc) (r : gmap string Qc) (p : string) :
  0 ≤ d → (∀ w, w ∈ keys g → 0 ≤ rank_of r w) →
  (1 - d) / N ≤ spec_new_rank g d r p.
Proof.
  intros Hd Hr. unfold spec_new_rank.
  rewrite <- (Qcplus_0_r ((1 - d) / N)) at 1.
  apply Qcplus_le_compat; [done|].
  apply Qcmult_nonneg_nonneg; [done|by apply spec_addition'_nonneg].
Qed.

Lemma base_term_pos (d : Qc) : d < 1 → 0 < (1 - d) / N.
Proof.
  intros Hd. apply Qc_div_pos; [|apply N_pos]. qc_to_q. lra.
Qed.

Lemma rank_of_initial_ranks (p : string) :
  p ∈ keys g → rank_of (initial_ranks g) p = 1 / N.
Proof.
  intros [x Hx]%elem_of_keys. unfold rank_of, initial_ranks.
  by rewrite lookup_fmap, Hx.
Qed.

Lemma ranks_at_S (d : Qc) (k : nat) :
  ranks_at g d (S k) = next_ranks g d (ranks_at g d k).
Proof. reflexivity. Qed.

Lemma ranks_at_positive (d : Qc) (k : nat) :
  0 ≤ d → d < 1 → positive_on g (ranks_at g d k).
Proof.
  intros Hd0 Hd1. induction k as [|k IH]; intros p Hp.
  - change (ranks_at g d 0) with (initial_ranks g).
    rewrite rank_of_initial_ranks by done.
    apply Qc_div_pos; [done|apply N_pos].
  - rewrite ranks_at_S, rank_of_next_ranks by done.
    eapply Qclt_le_trans; [by apply base_term_pos|].
    apply spec_new_rank_lower; [done|].
    intros w Hw. by apply Qclt_le_weak, IH.
Qed.

Lemma dist_nonneg (x y : gmap string Qc) : 0 ≤ dist g x y.
Proof. apply Qsum_nonneg. intros p _. apply Qcabs_nonneg. Qed.

(** The changes of successive rounds decay geometrically. *)
Lemma dist_decay (d : Qc) (k : nat) :
  0 ≤ d → d < 1 →
  dist g (ranks_at g d k) (ranks_at g d (S k))
  ≤ d ^ k * dist g (ranks_at g d 0) (ranks_at g d 1).
Proof.
  intros Hd0 Hd1. induction k as [|k IH].
  - cbn [Qcpower]. by rewrite Qcmult_1_l.
  - rewrite (ranks_at_S d (S k)), (ranks_at_S d k) at 1.
    etrans; [apply next_ranks_contract; by try apply ranks_at_positive|].
    cbn [Qcpower]. rewrite <- Qcmult_assoc.
    by apply Qcmult_le_mono_nonneg_l.
Qed.

Lemma converged_of_dist (old new : gmap string Qc) :
  dom new = dom g → dist g old new < threshold → converged old new = true.
Proof.
  intros Hnew Hdist. unfold converged. apply forallb_forall. intros p Hp.
  apply list_elem_of_In, elem_of_keys_dom in Hp. rewrite Hnew in Hp.
  apply elem_of_keys_dom in Hp. apply bool_decide_eq_true.
  eapply Qcle_lt_trans; [|exact Hdist]. rewrite Qcabs_Qcminus.
  apply (Qsum_elem_le (λ p, Qcabs (rank_of old p - rank_of new p)));
    [|done].
  intros q _. apply Qcabs_nonneg.
Qed.
End contraction.

(** ** Geometric decay reaches any positive threshold *)

Lemma Qc_archimedean (q : Qc) : ∃ k : nat, q < Qc_of_nat k.
Proof.
  exists (Z.to_nat (Qnum q) + 1)%nat. destruct q as [[n m] Hc].
  unfold Qclt, Qc_of_nat, Qlt. cbn. nia.
Qed.

Lemma Qcpower_nonneg (d : Qc) (k : nat) : 0 ≤ d → 0 ≤ d ^ k.
Proof.
  intros Hd. induction k as [|k IH]; cbn [Qcpower]; [done|].
  by apply Qcmult_nonneg_nonneg.
Qed.

Lemma Qcpower_bernoulli (d : Qc) (k : nat) :
  0 ≤ d → d ≤ 1 → d ^ k * (1 + Qc_of_nat k * (1 - d)) ≤ 1.
Proof.
  intros Hd0 Hd1. induction k as [|k IH].
  - cbn [Qcpower]. rewrite (proj2 (Qc_of_nat_0 0)) by done.
    replace (1 * (1 + 0 * (1 - d))) with (Q2Qc 1) by ring. done.
  - cbn [Qcpower]. rewrite Qc_of_nat_S.
    pose proof (Qcpower_nonneg d k Hd0) as HP.
    pose proof (Qc_of_nat_nonneg k) as HK.
    revert IH HP HK. generalize (d ^ k) (Qc_of_nat k). intros P K IH HP HK.
    qc_to_q.
    assert (0 <= P * ((1 - d) * (1 - d) * (K + 1)))%Q.
    { apply Qmult_le_0_compat; [done|].
      apply Qmult_le_0_compat; [nra|lra]. }
    nra.
Qed.

Lemma Qcpower_vanishes (d D eps : Qc) :
  0 ≤ d → d < 1 → 0 ≤ D → 0 < eps → ∃ k : nat, d ^ k * D < eps.
Proof.
  intros Hd0 Hd1 HD Heps.
  assert (0 < eps * (1 - d)) as Hpos.
  { apply Qcmult_pos_pos; [done|]. qc_to_q. lra. }
  destruct (Qc_archimedean ((D + D) / (eps * (1 - d)))) as [k Hk].
  exists k.
  apply (Qcmult_lt_mono_pos_r _ _ (eps * (1 - d))) in Hk; [|done].
  replace ((D + D) / (eps * (1 - d)) * (eps * (1 - d))) with (D + D) in Hk.
  2:{ field. split; intros Hz; qc_to_q; lra. }
  pose proof (Qcpower_bernoulli d k Hd0 (Qclt_le_weak _ _ Hd1)) as HB.
  pose proof (Qcpower_nonneg d k Hd0) as HP.
  pose proof (Qc_of_nat_nonneg k) as HK.
  revert Hk HB HP HK. generalize (d ^ k) (Qc_of_nat k). intros P K Hk HB HP HK.
  qc_to_q.
  assert (0 <= P * (K * (eps * (1 - d)) - (D + D)))%Q.
  { apply Qmult_le_0_compat; [done|lra]. }
  assert (0 <= eps * (1 - P * (1 + K * (1 - d))))%Q.
  { apply Qmult_le_0_compat; lra. }
  nra.
Qed.

(** ** Runs of the loop *)

Section loop_runs.
Context (w : world) (g : gmap string (gset string)) (d : Qc).
Hypothesis Hw : graph_obj w = g.
Hypothesis Hg : g ≠ ∅.

Local Abbreviation rf := ((1 - d) / Qc_of_nat (size g)).

Lemma iterate_loop_result (fuel : nat) (old new r : gmap string Qc)
    (w' : world) :
  dom old = dom g → dom new = dom g →
  iterate_loop fuel d rf old new w = (Ret r, w') →
  w' = w ∧ ∃ j, r = Nat.iter (S j) (next_ranks g d) old
                ∧ converged (Nat.iter j (next_ranks g d) old) r = true.
Proof.
  revert old new. induction fuel as [|fuel IH]; intros old new Hold Hnew Hrun.
  - discriminate Hrun.
  - rewrite (iterate_loop_unfold w g _ _ _ _ Hw Hg Hold Hnew) in Hrun.
    destruct (converged old (next_ranks g d old)) eqn:Hnow.
    + injection Hrun as <- <-. split; [reflexivity|].
      exists 0%nat. split; [reflexivity|exact Hnow].
    + apply IH in Hrun as [-> (j & -> & Hc)]; try apply dom_next_ranks.
      split; [reflexivity|]. exists (S j).
      rewrite <- (Nat.iter_succ_r (S j) (next_ranks g d) old) in Hc |- *.
      rewrite <- (Nat.iter_succ_r j (next_ranks g d) old) in Hc.
      split; [reflexivity|exact Hc].
Qed.

Lemma iterate_loop_fuel_S (fuel : nat) (old new r : gmap string Qc)
    (w' : world) :
  dom old = dom g → dom new = dom g →
  iterate_loop fuel d rf old new w = (Ret r, w') →
  iterate_loop (S fuel) d rf old new w = (Ret r, w').
Proof.
  revert old new. induction fuel as [|fuel IH]; intros old new Hold Hnew Hrun.
  - discriminate Hrun.
  - rewrite (iterate_loop_unfold w g _ _ _ _ Hw Hg Hold Hnew) in Hrun.
    rewrite (iterate_loop_unfold w g _ _ _ _ Hw Hg Hold Hnew).
    destruct (converged old (next_ranks g d old)); [exact Hrun|].
    apply IH; [apply dom_next_ranks..|exact Hrun].
Qed.

Lemma iterate_loop_fuel_mono (fuel fuel' : nat) (old new r : gmap string Qc)
    (w' : world) :
  (fuel ≤ fuel')%nat → dom old = dom g → dom new = dom g →
  iterate_loop fuel d rf old new w = (Ret r, w') →
  iterate_loop fuel' d rf old new w = (Ret r, w').
Proof.
  intros Hle Hold Hnew Hrun. induction Hle as [|fuel' _ IH]; [exact Hrun|].
  apply iterate_loop_fuel_S; [exact Hold|exact Hnew|exact IH].
Qed.

Lemma converged_pages (old new : gmap string Qc) (p : string) :
  converged old new = true → p ∈ dom new →
  Qcabs (rank_of new p - rank_of old p) < threshold.
Proof.
  unfold converged. rewrite forallb_forall. intros Hall Hp.
  apply elem_of_keys_dom, list_elem_of_In, Hall in Hp.
  apply bool_decide_eq_true in Hp. exact Hp.
Qed.

(** Some round passes the convergence test. *)
Lemma some_round_converges :
  0 ≤ d → d < 1 →
  ∃ k, converged (ranks_at g d k) (ranks_at g d (S k)) = true.
Proof.
  intros Hd0 Hd1.
  destruct (Qcpower_vanishes d (dist g (ranks_at g d 0) (ranks_at g d 1))
              threshold Hd0 Hd1) as [k Hk]; [apply dist_nonneg|reflexivity|].
  exists k. apply (converged_of_dist g); [apply dom_ranks_at|].
  eapply Qcle_lt_trans; [apply dist_decay; assumption|exact Hk].
Qed.

Lemma iterate_pagerank_returns :
  0 ≤ d → d < 1 →
  ∃ fuel j,
    (∀ fuel', (fuel ≤ fuel')%nat →
       iterate_pagerank fuel' d w = (Ret (ranks_at g d (S j)), w))
    ∧ converged (ranks_at g d j) (ranks_at g d (S j)) = true.
Proof.
  intros Hd0 Hd1. destruct (some_round_converges Hd0 Hd1) as [k Hk].
  destruct (iterate_loop_returns w g d k Hw Hg (initial_ranks g)
              ((λ _, 0) <$> g)) as (j & Hj & Hrun & Hc);
    [apply dom_initial_ranks|apply dom_fmap_L|exact Hk|].
  exists (S k), j. split; [|exact Hc]. intros fuel' Hle.
  rewrite (iterate_pagerank_unfold w g _ _ Hw Hg).
  eapply iterate_loop_fuel_mono;
    [exact Hle|apply dom_initial_ranks|apply dom_fmap_L|exact Hrun].
Qed.

Lemma iterate_pagerank_result (fuel : nat) (r : gmap string Qc) (w' : world) :
  iterate_pagerank fuel d w = (Ret r, w') →
  w' = w ∧ ∃ j, r = ranks_at g d (S j)
                ∧ converged (ranks_at g d j) r = true.
Proof.
  rewrite (iterate_pagerank_unfold w g _ _ Hw Hg).
  apply iterate_loop_result; [apply dom_initial_ranks|apply dom_fmap_L].
Qed.
End loop_runs.

(** ** The graph object is only read *)

Section frames.
Lemma frames_ret {A} (a : A) : frames_graph (ret a).
Proof. by intros w. Qed.

Lemma frames_raise {A} (e : pyexn) : frames_graph (raise (A := A) e).
Proof. by intros w. Qed.

Lemma frames_bind {A B} (m : M A) (k : A → M B) :
  frames_graph m → (∀ a, frames_graph (k a)) → frames_graph (bind m k).
Proof.
  intros Hm Hk w. unfold bind. specialize (Hm w).
  destruct (m w) as [[a|e|] w']; cbn in *; [|done..].
  by rewrite Hk.
Qed.

Lemma frames_for_each {A St} (l : list A) (body : A → St → M St) (s : St) :
  (∀ x s, frames_graph (body x s)) → frames_graph (for_each l s body).
Proof.
  intros Hbody. revert s. induction l as [|x l IH]; intros s; cbn [for_each].
  - apply frames_ret.
  - apply frames_bind; [apply Hbody|]. intros s'. apply IH.
Qed.

Lemma frames_py_all {A} (l : list A) (test : A → M bool) :
  (∀ x, frames_graph (test x)) → frames_graph (py_all l test).
Proof.
  intros Htest. induction l as [|x l IH]; cbn [py_all].
  - apply frames_ret.
  - apply frames_bind; [apply Htest|]. intros [|]; [apply IH|apply frames_ret].
Qed.

Lemma frames_py_div (x y : Qc) : frames_graph (py_div x y).
Proof. unfold py_div. case_decide; [apply frames_raise|apply frames_ret]. Qed.

Lemma frames_dict_get {V} (d : gmap string V) (k : string) :
  frames_graph (dict_get d k).
Proof.
  unfold dict_get. destruct (d !! k); [apply frames_ret|apply frames_raise].
Qed.

Lemma frames_corpus_get (k : string) : frames_graph (corpus_get k).
Proof. intros w. unfold corpus_get. apply frames_dict_get. Qed.

Lemma frames_corpus_len : frames_graph corpus_len.
Proof. by intros w. Qed.

Lemma frames_corpus_keys : frames_graph corpus_keys.
Proof. by intros w. Qed.

Lemma frames_zip_items {V} (d : gmap string V) : frames_graph (zip_items d).
Proof.
  unfold zip_items. destruct (map_to_list d); [apply frames_raise|apply frames_ret].
Qed.

Lemma frames_next_draw : frames_graph next_draw.
Proof. by intros w. Qed.

Lemma frames_tick_tm : frames_graph tick_tm.
Proof. by intros w. Qed.

Lemma frames_random_random : frames_graph random_random.
Proof.
  apply frames_bind; [apply frames_next_draw|]. intros r. apply frames_ret.
Qed.

Lemma frames_random_choice {A} (seq : list A) : frames_graph (random_choice seq).
Proof.
  unfold random_choice. destruct seq as [|x seq]; [apply frames_raise|].
  apply frames_bind; [apply frames_next_draw|]. intros r.
  destruct (_ !! _); [apply frames_ret|apply frames_raise].
Qed.

Lemma frames_random_choices {A} (population : list A) (weights : list Qc) :
  frames_graph (random_choices population weights).
Proof.
  unfold random_choices. case_decide; [|apply frames_raise].
  destruct (last _); [|apply frames_raise].
  case_decide; [apply frames_raise|].
  apply frames_bind; [apply frames_random_random|]. intros u.
  destruct (_ !! _); [apply frames_ret|apply frames_raise].
Qed.

Lemma frames_transition_model (page : string) (d : Qc) :
  frames_graph (transition_model page d).
Proof.
  unfold transition_model.
  apply frames_bind; [apply frames_tick_tm|]. intros _.
  apply frames_bind; [apply frames_corpus_len|]. intros n.
  apply frames_bind; [apply frames_py_div|]. intros rf.
  apply frames_bind; [apply frames_corpus_keys|]. intros ks.
  apply frames_bind.
  { apply frames_for_each. intros key s. apply frames_ret. }
  intros solution. apply frames_for_each. intros web s.
  apply frames_bind; [apply frames_corpus_get|]. intros links.
  case_decide; [|apply frames_ret].
  apply frames_bind; [apply frames_dict_get|]. intros cur.
  apply frames_bind; [apply frames_corpus_get|]. intros links'.
  apply frames_bind; [apply frames_py_div|]. intros inc. apply frames_ret.
Qed.

Lemma frames_sample_pagerank (d : Qc) (n : Z) :
  frames_graph (sample_pagerank d n).
Proof.
  unfold sample_pagerank.
  apply frames_bind; [apply frames_corpus_keys|]. intros options.
  apply frames_bind.
  { apply frames_for_each. intros key s. apply frames_ret. }
  intros solution.
  apply frames_bind; [apply frames_random_choice|]. intros choice.
  apply frames_bind.
  { case_decide; [|apply frames_ret].
    apply frames_for_each. intros _ cs.
    apply frames_bind; [apply frames_transition_model|]. intros model.
    apply frames_bind; [apply frames_zip_items|]. intros op.
    apply frames_bind; [apply frames_random_choices|]. intros c.
    apply frames_ret. }
  intros cs. apply frames_bind.
  { apply frames_for_each. intros item s.
    apply frames_bind; [apply frames_dict_get|]. intros cur.
    apply frames_ret. }
  intros solution'. apply frames_for_each. intros key s.
  apply frames_bind; [apply frames_dict_get|]. intros cur.
  apply frames_bind; [apply frames_py_div|]. intros q. apply frames_ret.
Qed.

Lemma frames_inbound_step (old : gmap string Qc) (page web : string)
    (addition : Qc) :
  frames_graph (inbound_step old page web addition).
Proof.
  unfold inbound_step.
  apply frames_bind; [apply frames_corpus_get|]. intros links.
  apply frames_bind.
  { case_decide; [|apply frames_ret].
    apply frames_bind; [apply frames_dict_get|]. intros o.
    apply frames_bind; [apply frames_corpus_get|]. intros links'.
    apply frames_bind; [apply frames_py_div|]. intros q. apply frames_ret. }
  intros addition'.
  apply frames_bind; [apply frames_corpus_get|]. intros links''.
  case_decide; [|apply frames_ret].
  apply frames_bind; [apply frames_dict_get|]. intros o.
  apply frames_bind; [apply frames_corpus_len|]. intros n.
  apply frames_bind; [apply frames_py_div|]. intros q. apply frames_ret.
Qed.

Lemma frames_update_round (d rf : Qc) (old new : gmap string Qc) :
  frames_graph (update_round d rf old new).
Proof.
  unfold update_round. apply frames_for_each. intros page s.
  apply frames_bind; [|intros a; apply frames_ret].
  unfold inbound_sum.
  apply frames_bind; [apply frames_corpus_keys|]. intros webs.
  apply frames_bind.
  { apply frames_for_each. intros web a. apply frames_inbound_step. }
  intros a. case_decide; [|apply frames_ret].
  apply frames_bind; [apply frames_corpus_len|]. intros n.
  apply frames_py_div.
Qed.

Lemma frames_iterate_loop (fuel : nat) (d rf : Qc) (old new : gmap string Qc) :
  frames_graph (iterate_loop fuel d rf old new).
Proof.
  revert old new. induction fuel as [|fuel IH]; intros old new;
    cbn [iterate_loop]; [by intros w|].
  apply frames_bind; [apply frames_update_round|]. intros new'.
  apply frames_bind.
  { unfold convergence_test. apply frames_py_all. intros page.
    apply frames_bind; [apply frames_dict_get|]. intros n.
    apply frames_bind; [apply frames_dict_get|]. intros o.
    apply frames_ret. }
  intros [|]; [apply frames_ret|apply IH].
Qed.

Lemma frames_iterate_pagerank (fuel : nat) (d : Qc) :
  frames_graph (iterate_pagerank fuel d).
Proof.
  unfold iterate_pagerank.
  apply frames_bind; [apply frames_corpus_keys|]. intros ks.
  apply frames_bind.
  { apply frames_for_each. intros key s.
    apply frames_bind; [apply frames_corpus_len|]. intros n.
    apply frames_bind; [apply frames_py_div|]. intros v. apply frames_ret. }
  intros old.
  apply frames_bind; [apply frames_corpus_keys|]. intros ks'.
  apply frames_bind.
  { apply frames_for_each. intros key s. apply frames_ret. }
  intros new.
  apply frames_bind; [apply frames_corpus_len|]. intros n.
  apply frames_bind; [apply frames_py_div|]. intros rf.
  apply frames_iterate_loop.
Qed.
End frames.

(** ** The sampling estimator *)

Lemma lookup_foldl_alter (h : Qc → Qc) (l : list string)
    (s : gmap string Qc) (p : string) :
  NoDup l →
  foldl (λ s k, <[k := h (default 0 (s !! k))]> s) s l !! p
  = if decide (p ∈ l) then Some (h (default 0 (s !! p))) else s !! p.
Proof.
  intros Hl. revert s. induction Hl as [|k l Hk Hl IH]; intros s; cbn [foldl].
  - rewrite decide_False; [done|]. apply not_elem_of_nil.
  - rewrite IH. destruct (decide (p = k)) as [->|Hne].
    + rewrite (decide_False (P := k ∈ l)) by done.
      rewrite lookup_insert_eq. rewrite decide_True; [done|left].
    + rewrite lookup_insert_ne by done.
      destruct (decide (p ∈ l)) as [Hp|Hp].
      * rewrite decide_True; [done|by right].
      * rewrite decide_False; [done|]. by intros [?|?]%elem_of_cons.
Qed.

Lemma random_choice_run {A} (seq : list A) (w : world) :
  seq ≠ [] →
  ∃ x, seq !! (N.to_nat (entropy w (cursor w)) mod length seq)%nat = Some x
       ∧ random_choice seq w = (Ret x, advance w).
Proof.
  intros Hseq. destruct seq as [|a seq]; [done|].
  destruct (lookup_lt_is_Some_2 (a :: seq)
              (N.to_nat (entropy w (cursor w)) mod length (a :: seq))%nat)
    as [x Hx].
  { apply Nat.mod_upper_bound. cbn. lia. }
  exists x. split; [done|]. unfold random_choice.
  rewrite (bind_Ret _ _ w (advance w) (entropy w (cursor w))) by done.
  by rewrite Hx.
Qed.

Lemma keys_ne_nil {V} (g : gmap string V) : g ≠ ∅ → keys g ≠ [].
Proof.
  intros Hg Hk. apply Hg, map_size_empty_iff.
  by rewrite <- length_keys, Hk.
Qed.

(** The normalisation loop of lines 144-145. *)
Lemma normalise_run (w : world) (total : Qc) (solution : gmap string Qc) :
  total ≠ 0 →
  ∃ solution',
    for_each (keys solution) solution (λ key solution,
      cur <~ dict_get solution key ;;
      q <~ py_div cur total ;;
      ret (<[key := q]> solution)) w = (Ret solution', w)
    ∧ ∀ p, solution' !! p = (λ v, v / total) <$> solution !! p.
Proof.
  intros Htotal.
  destruct (for_each_pure (λ s : gmap string Qc, dom s = dom solution)
              (λ s k, <[k := (λ v, v / total) (default 0 (s !! k))]> s)
              (keys solution)
              (λ key solution,
                 cur <~ dict_get solution key ;;
                 q <~ py_div cur total ;;
                 ret (<[key := q]> solution))
              solution w) as [Hloop _]; [done| |].
  { intros key s Hkey Hs. apply elem_of_keys_dom in Hkey.
    rewrite <- Hs in Hkey. pose proof Hkey as Hin.
    apply elem_of_dom in Hkey as [cur Hcur]. split.
    - rewrite (bind_Ret _ _ _ w cur) by by apply dict_get_Ret.
      rewrite (bind_Ret _ _ _ w (cur / total)) by by apply py_div_Ret.
      by rewrite Hcur.
    - rewrite dom_insert_L, <- Hs. apply (anti_symm (⊆)).
      + apply union_least; [by apply singleton_subseteq_l|done].
      + apply union_subseteq_r. }
  eexists. split; [exact Hloop|]. intros p.
  rewrite (lookup_foldl_alter (λ v, v / total)) by apply NoDup_keys.
  destruct (decide (p ∈ keys solution)) as [Hp|Hp].
  - apply elem_of_keys in Hp as [v Hv]. by rewrite Hv.
  - destruct (solution !! p) as [v|] eqn:Hv; [|done].
    exfalso. apply Hp, elem_of_keys. by eexists.
Qed.

(** With [n ≤ 1] the sampling loop is skipped. *)
Lemma sample_pagerank_single (w : world) (d : Qc) (n : Z) :
  graph_obj w ≠ ∅ → (n ≤ 1)%Z →
  ∃ first solution,
    keys (graph_obj w)
      !! (N.to_nat (entropy w (cursor w)) mod size (graph_obj w))%nat
    = Some first
    ∧ sample_pagerank d n w = (Ret solution, advance w)
    ∧ ∀ p, solution !! p
           = if decide (p = first) then Some 1
             else if decide (p ∈ dom (graph_obj w)) then Some 0 else None.
Proof.
  intros Hg Hn. set (g := graph_obj w).
  destruct (random_choice_run (keys g) w) as (first & Hfirst & Hchoice);
    [by apply keys_ne_nil|].
  rewrite length_keys in Hfirst. exists first.
  assert (first ∈ dom g) as Hin.
  { apply elem_of_keys_dom. by eapply list_elem_of_lookup_2. }
  set (sol1 := <[first := 0 + 1]> ((λ _, 0) <$> g) : gmap string Qc).
  destruct (normalise_run (advance w) (Qc_of_nat (length [first])) sol1)
    as (solution & Hnorm & Hlookup).
  { rewrite Qc_of_nat_0. done. }
  exists solution. split; [exact Hfirst|]. split.
  - unfold sample_pagerank.
    rewrite (bind_Ret _ _ _ w (keys g)) by done.
    destruct (for_each_pure (St := gmap string Qc) (λ _, True)
                (λ s k, <[k := 0]> s) (keys g)
                (λ key solution, ret (<[key := 0]> solution)) ∅ w)
      as [Hinit _]; [done|done|].
    rewrite (bind_Ret _ _ _ _ _ Hinit), const_dict_fmap.
    rewrite (bind_Ret _ _ _ _ _ Hchoice).
    rewrite decide_False by lia.
    rewrite (bind_Ret _ _ _ (advance w) (first, [] ++ [first])) by done.
    cbn [snd app for_each].
    rewrite (bind_Ret _ _ _ (advance w) sol1).
    2:{ rewrite (bind_Ret _ _ _ (advance w) sol1); [done|].
        rewrite (bind_Ret _ _ _ (advance w) 0); [done|].
        apply dict_get_Ret. rewrite lookup_fmap.
        apply elem_of_dom in Hin as [x ->]. done. }
    exact Hnorm.
  - intros p. rewrite Hlookup. unfold sol1.
    destruct (decide (p = first)) as [->|Hne].
    + rewrite lookup_insert_eq. cbn. f_equal; by apply Qc_is_canon.
    + rewrite lookup_insert_ne by done. rewrite lookup_fmap.
      destruct (decide (p ∈ dom g)) as [Hp|Hp].
      * apply elem_of_dom in Hp as [x ->]. cbn. f_equal; by apply Qc_is_canon.
      * apply not_elem_of_dom in Hp. by rewrite Hp.
Qed.

Lemma sample_pagerank_empty (w : world) (d : Qc) (n : Z) :
  graph_obj w = ∅ → sample_pagerank d n w = (Raise IndexError, w).
Proof.
  intros Hg. unfold sample_pagerank.
  rewrite (bind_Ret _ _ _ w []).
  2:{ unfold corpus_keys, keys. by rewrite Hg, map_to_list_empty. }
  cbn [for_each].
  rewrite (bind_Ret _ _ _ w ∅) by done.
  by rewrite (bind_Raise _ _ w w IndexError).
Qed.

Lemma iterate_pagerank_empty (w : world) (fuel : nat) (d : Qc) :
  graph_obj w = ∅ → iterate_pagerank fuel d w = (Raise ZeroDivisionError, w).
Proof.
  intros Hg. unfold iterate_pagerank.
  assert (corpus_keys w = (Ret [], w)) as Hkeys.
  { unfold corpus_keys, keys. by rewrite Hg, map_to_list_empty. }
  rewrite (bind_Ret _ _ _ _ _ Hkeys). cbn [for_each].
  rewrite (bind_Ret _ _ _ w ∅) by done.
  rewrite (bind_Ret _ _ _ _ _ Hkeys). cbn [for_each].
  rewrite (bind_Ret _ _ _ w ∅) by done.
  rewrite (bind_Ret _ _ _ w 0).
  2:{ unfold corpus_len. rewrite Hg, map_size_empty.
      by rewrite (proj2 (Qc_of_nat_0 0)). }
  rewrite (bind_Raise _ _ w w ZeroDivisionError); [done|].
  unfold py_div. by rewrite decide_True.
Qed.

(** On a non-empty graph no statement of [iterate_pagerank] raises,
    whatever the damping factor. *)
Lemma iterate_pagerank_no_exception (w : world) (fuel : nat) (d : Qc) (e : pyexn) :
  graph_obj w ≠ ∅ → (iterate_pagerank fuel d w).1 ≠ Raise e.
Proof.
  intros Hg. rewrite (iterate_pagerank_unfold w (graph_obj w) _ _ eq_refl Hg).
  assert (∀ old new, dom old = dom (graph_obj w) → dom new = dom (graph_obj w) →
          (iterate_loop fuel d ((1 - d) / Qc_of_nat (size (graph_obj w)))
             old new w).1 ≠ Raise e) as Hloop.
  { induction fuel as [|fuel IH]; intros old new Hold Hnew; [done|].
    rewrite (iterate_loop_unfold w (graph_obj w) _ _ _ _ eq_refl Hg Hold Hnew).
    destruct (converged old _); [done|].
    apply IH; apply dom_next_ranks. }
  apply Hloop; [apply dom_initial_ranks|apply dom_fmap_L].
Qed.

(** ** Totals of distributions *)

Lemma Qsum_fmap {A B} (f : B → Qc) (h : A → B) (l : list A) :
  Qsum f (h <$> l) = Qsum (f ∘ h) l.
Proof.
  induction l as [|x l IH]; [done|].
  rewrite fmap_cons, !Qsum_cons, IH. done.
Qed.

Lemma dict_total_keys (m : gmap string Qc) :
  dict_total m = Qsum (rank_of m) (keys m).
Proof.
  unfold dict_total, keys. rewrite Qsum_fmap. apply Qsum_ext.
  intros [k v] Hkv. apply elem_of_map_to_list in Hkv.
  unfold rank_of. cbn. by rewrite Hkv.
Qed.

Lemma dict_total_dom (m : gmap string Qc) (g : gmap string (gset string)) :
  dom m = dom g → dict_total m = Qsum (rank_of m) (keys g).
Proof.
  intros Hdom. rewrite dict_total_keys. apply Qsum_perm.
  apply NoDup_Permutation; [apply NoDup_keys..|].
  intros p. by rewrite !elem_of_keys_dom, Hdom.
Qed.

Lemma dom_of_lookup (m : gmap string Qc) (g : gmap string (gset string))
    (v : string → Qc) :
  (∀ p, m !! p = if decide (p ∈ dom g) then Some (v p) else None) →
  dom m = dom g.
Proof.
  intros Hm. apply set_eq. intros p. rewrite elem_of_dom, Hm.
  destruct (decide (p ∈ dom g)); [by split; [|eexists]|].
  split; [by intros [? ?]|done].
Qed.

(** The total of the transition model's distribution: [1 - damping] from
    the base terms, and [damping] once for every link of [page] that is
    a page of the corpus, split over all of its links. *)
Lemma transition_model_total (w : world) (page : string) (d : Qc)
    (links : gset string) :
  graph_obj w !! page = Some links →
  ∃ solution,
    transition_model page d w = (Ret solution, bump_tm w)
    ∧ dict_total solution
      = (1 - d)
        + Qc_of_nat (length (filter (λ p, p ∈ links) (keys (graph_obj w))))
          * (d / set_len links).
Proof.
  intros Hpage.
  destruct (transition_model_run w page d links Hpage) as (sol & Hrun & Hl).
  exists sol. split; [exact Hrun|]. set (g := graph_obj w) in *.
  assert (Qc_of_nat (size g) ≠ 0) as HN.
  { rewrite Qc_of_nat_0. apply size_graph_ne_0. intros Hg.
    by rewrite Hg in Hpage. }
  rewrite (dict_total_dom sol g).
  2:{ exact (dom_of_lookup sol g
               (λ p, (1 - d) / Qc_of_nat (size g)
                     + if decide (p ∈ links) then d / set_len links else 0)
               Hl). }
  rewrite (Qsum_ext _ (λ p, (1 - d) / Qc_of_nat (size g)
                            + if decide (p ∈ links) then d / set_len links
                              else 0)).
  2:{ intros p Hp. apply elem_of_keys_dom in Hp. unfold rank_of.
      by rewrite Hl, decide_True. }
  rewrite Qsum_plus, Qsum_const, length_keys.
  rewrite (Qsum_filter (d / set_len links) (λ p, p ∈ links)).
  f_equal. field. done.
Qed.

(** *** The sampling loop *)

Lemma for_each_inv {A St} (I : nat → St → world → Prop) (l : list A)
    (body : A → St → M St) (s : St) (w : world) :
  I 0%nat s w →
  (∀ i x s w, l !! i = Some x → I i s w →
     ∃ s' w', body x s w = (Ret s', w') ∧ I (S i) s' w') →
  ∃ s' w', for_each l s body w = (Ret s', w') ∧ I (length l) s' w'.
Proof.
  revert I s w. induction l as [|x l IH]; intros I s w H0 Hbody.
  - by exists s, w.
  - destruct (Hbody 0%nat x s w) as (s1 & w1 & Hx & H1); [done|done|].
    destruct (IH (λ i, I (S i)) s1 w1) as (s2 & w2 & Hrun & H2).
    { exact H1. }
    { intros i y s' w' Hy. by apply (Hbody (S i)). }
    exists s2, w2. split; [|exact H2].
    cbn [for_each]. by rewrite (bind_Ret _ _ _ _ _ Hx).
Qed.

Lemma length_accumulate_from (a : Qc) (ws : list Qc) :
  length (accumulate_from a ws) = length ws.
Proof.
  revert a. induction ws as [|x ws IH]; intros a; [done|].
  cbn. by rewrite IH.
Qed.

Lemma last_accumulate_from (a : Qc) (ws : list Qc) :
  ws ≠ [] → Forall (λ x, 0 < x) ws →
  ∃ t, last (accumulate_from a ws) = Some t ∧ a < t.
Proof.
  intros Hne Hpos. revert a.
  induction Hpos as [|x ws Hx Hws IH]; intros a; [done|].
  destruct ws as [|y ws].
  - exists (a + x). split; [done|].
    rewrite <- (Qcplus_0_r a) at 1. by apply Qcplus_lt_mono_l.
  - destruct (IH ltac:(done) (a + x)) as (t & Ht & Hlt).
    exists t. split; [exact Ht|].
    eapply Qclt_trans; [|exact Hlt].
    rewrite <- (Qcplus_0_r a) at 1. by apply Qcplus_lt_mono_l.
Qed.

Lemma bisect_bounds (fuel : nat) (a : list Qc) (x : Qc) (lo hi : nat) :
  (lo ≤ hi)%nat → (lo ≤ bisect fuel a x lo hi ≤ hi)%nat.
Proof.
  revert lo hi. induction fuel as [|fuel IH]; intros lo hi Hle; cbn [bisect].
  - lia.
  - destruct (decide (lo < hi)%nat) as [Hlt|Hge]; [|lia].
    pose proof (Nat.div_mod_eq (lo + hi) 2) as Hdiv.
    pose proof (Nat.mod_upper_bound (lo + hi) 2) as Hmod.
    destruct (decide (x < default 0 (a !! ((lo + hi) `div` 2)%nat))).
    + specialize (IH lo ((lo + hi) `div` 2)%nat). lia.
    + specialize (IH (S ((lo + hi) `div` 2)) hi). lia.
Qed.

Lemma random_choices_run {A} (population : list A) (weights : list Qc)
    (w : world) :
  population ≠ [] →
  length weights = length population →
  Forall (λ x, 0 < x) weights →
  ∃ x, random_choices population weights w = (Ret x, advance w)
       ∧ x ∈ population.
Proof.
  intros Hne Hlen Hpos.
  assert (weights ≠ []) as Hwne.
  { intros ->. destruct population; [done|discriminate Hlen]. }
  destruct (last_accumulate_from 0 weights Hwne Hpos) as (total & Hlast & Htotal).
  set (u := Qc_of_Z (Z.of_N (entropy w (cursor w)) mod 2 ^ 53) / Qc_of_Z (2 ^ 53)).
  destruct (lookup_lt_is_Some_2 population
              (bisect (length population) (accumulate weights) (u * total)
                 0 (length population - 1))) as [x Hx].
  { pose proof (bisect_bounds (length population) (accumulate weights)
                  (u * total) 0 (length population - 1)).
    destruct population; [done|]. cbn [length] in *. lia. }
  exists x. split; [|by eapply list_elem_of_lookup_2].
  unfold random_choices, accumulate.
  rewrite decide_True by (by rewrite length_accumulate_from).
  rewrite Hlast.
  rewrite decide_False by (by apply Qclt_not_le).
  rewrite (bind_Ret _ _ w (advance w) u) by done.
  fold (accumulate weights). by rewrite Hx.
Qed.

Lemma sample_step_run (w : world) (d : Qc) (choice : string)
    (sample : list string) :
  0 ≤ d → d < 1 → choice ∈ dom (graph_obj w) →
  ∃ c w',
    (model <~ transition_model choice d ;;
     op <~ zip_items model ;;
     choice <~ random_choices op.1 op.2 ;;
     ret (choice, sample ++ [choice])) w
    = (Ret (c, sample ++ [c]), w')
    ∧ graph_obj w' = graph_obj w
    ∧ c ∈ dom (graph_obj w).
Proof.
  intros Hd0 Hd1 Hchoice. set (g := graph_obj w).
  pose proof Hchoice as Hlinks. apply elem_of_dom in Hlinks as [links Hlinks].
  assert (g ≠ ∅) as Hg.
  { intros Hg. unfold g in Hg. by rewrite Hg in Hlinks. }
  destruct (transition_model_run w choice d links Hlinks) as (model & Hrun & Hl).
  assert (dom model = dom g) as Hdom.
  { exact (dom_of_lookup model g _ Hl). }
  assert (map_to_list model ≠ []) as Hitems.
  { rewrite map_to_list_empty_iff. intros Hm. apply Hg.
    apply dom_empty_iff_L. by rewrite <- Hdom, Hm, dom_empty_L. }
  destruct (random_choices_run (map_to_list model).*1 (map_to_list model).*2
              (bump_tm w)) as (c & Hc & Hin).
  { by destruct (map_to_list model). }
  { by rewrite !length_fmap. }
  { apply Forall_forall. intros v Hv.
    apply list_elem_of_fmap in Hv as [[k v'] [-> Hkv]].
    apply elem_of_map_to_list in Hkv. rewrite Hl in Hkv.
    destruct (decide (k ∈ dom (graph_obj w))); [|done].
    injection Hkv as <-. cbn.
    apply Qcplus_pos_nonneg; [by apply base_term_pos|].
    destruct (decide (k ∈ links)); [|done].
    apply Qc_div_nonneg; [done|apply Qc_of_nat_nonneg]. }
  exists c, (advance (bump_tm w)). split; [|split; [done|]].
  - rewrite (bind_Ret _ _ _ _ _ Hrun).
    rewrite (bind_Ret _ _ _ (bump_tm w)
               ((map_to_list model).*1, (map_to_list model).*2)).
    2:{ unfold zip_items. by destruct (map_to_list model). }
    by rewrite (bind_Ret _ _ _ _ _ Hc).
  - fold g. rewrite <- Hdom. by apply elem_of_keys_dom.
Qed.

(** The tally of lines 138-139. *)
Lemma dict_total_insert (m : gmap string Qc) (k : string) (v v' : Qc) :
  m !! k = Some v → dict_total (<[k := v']> m) = dict_total m - v + v'.
Proof.
  intros Hk. unfold dict_total.
  rewrite <- (insert_delete_eq m k v') .
  rewrite <- (insert_delete_id m k v Hk) at 2.
  rewrite !(Qsum_perm _ _ _ (map_to_list_insert _ _ _ (lookup_delete_eq m k))).
  rewrite !Qsum_cons. cbn. ring.
Qed.

Lemma tally_run (w : world) (sample : list string) (solution : gmap string Qc) :
  (∀ x, x ∈ sample → x ∈ dom solution) →
  ∃ solution',
    for_each sample solution (λ item solution,
      cur <~ dict_get solution item ;;
      ret (<[item := cur + 1]> solution)) w = (Ret solution', w)
    ∧ dom solution' = dom solution
    ∧ dict_total solution' = dict_total solution + Qc_of_nat (length sample)
    ∧ ((∀ p v, solution !! p = Some v → 0 ≤ v) →
       ∀ p v, solution' !! p = Some v → 0 ≤ v).
Proof.
  revert solution. induction sample as [|x sample IH]; intros s Hin.
  - exists s. split; [done|]. split; [done|]. split; [|done].
    cbn [length]. rewrite (proj2 (Qc_of_nat_0 0)) by done. ring.
  - destruct (proj1 (elem_of_dom s x)) as [cur Hcur]; [apply Hin; left|].
    destruct (IH (<[x := cur + 1]> s)) as (s' & Hrun & Hdom & Htot & Hpos).
    { intros y Hy. rewrite dom_insert_L. apply elem_of_union_r, Hin. by right. }
    exists s'. split; [|split; [|split]].
    + cbn [for_each].
      rewrite (bind_Ret _ _ _ w (<[x := cur + 1]> s)); [exact Hrun|].
      by rewrite (bind_Ret _ _ _ w cur) by by apply dict_get_Ret.
    + rewrite Hdom, dom_insert_L. apply (anti_symm (⊆)).
      * apply union_least; [|done]. apply singleton_subseteq_l.
        apply elem_of_dom. by eexists.
      * apply union_subseteq_r.
    + rewrite Htot, (dict_total_insert s x cur) by done.
      cbn [length]. rewrite Qc_of_nat_S. ring.
    + intros Hs. apply Hpos. intros p v.
      destruct (decide (p = x)) as [->|Hne].
      * rewrite lookup_insert_eq. intros [= <-].
        apply Qcplus_nonneg_nonneg; [by eapply Hs|done].
      * rewrite lookup_insert_ne by done. apply Hs.
Qed.

Lemma dict_total_fmap {V} (f : V → Qc) (m : gmap string V) :
  dict_total (f <$> m) = Qsum (λ kv, f kv.2) (map_to_list m).
Proof.
  unfold dict_total. rewrite map_to_list_fmap, Qsum_fmap.
  apply Qsum_ext. by intros [k v] _.
Qed.

(** For a non-empty graph, [n ≥ 1] and [0 ≤ damping < 1] the sampling
    estimator returns a distribution over exactly the pages of the graph,
    with no negative value, whose values sum to one. *)
Lemma sample_pagerank_distribution (w : world) (d : Qc) (n : Z) :
  graph_obj w ≠ ∅ → (1 ≤ n)%Z → 0 ≤ d → d < 1 →
  ∃ solution w',
    sample_pagerank d n w = (Ret solution, w')
    ∧ dom solution = dom (graph_obj w)
    ∧ (∀ p v, solution !! p = Some v → 0 ≤ v)
    ∧ dict_total solution = 1.
Proof.
  intros Hg Hn Hd0 Hd1. set (g := graph_obj w).
  destruct (random_choice_run (keys g) w) as (first & Hfirst & Hchoice);
    [by apply keys_ne_nil|].
  assert (first ∈ dom g) as Hin.
  { apply elem_of_keys_dom. by eapply list_elem_of_lookup_2. }
  (* the sampling loop *)
  assert (∃ cs w1,
            (if decide (n > 1)%Z then
               for_each (seq 0 (Z.to_nat (n - 1))) (first, [] ++ [first])
                 (λ _ cs,
                    model <~ transition_model cs.1 d ;;
                    op <~ zip_items model ;;
                    choice <~ random_choices op.1 op.2 ;;
                    ret (choice, cs.2 ++ [choice]))
             else ret (first, [] ++ [first])) (advance w) = (Ret cs, w1)
            ∧ (∀ x, x ∈ cs.2 → x ∈ dom g)
            ∧ cs.2 ≠ []) as (cs & w1 & Hloop & Hsample & Hne).
  { destruct (decide (n > 1)%Z) as [Hgt|Hle].
    - destruct (for_each_inv
                  (λ _ (cs : string * list string) w',
                     graph_obj w' = g ∧ cs.1 ∈ dom g
                     ∧ (∀ x, x ∈ cs.2 → x ∈ dom g) ∧ cs.2 ≠ [])
                  (seq 0 (Z.to_nat (n - 1)))
                  (λ _ cs,
                     model <~ transition_model cs.1 d ;;
                     op <~ zip_items model ;;
                     choice <~ random_choices op.1 op.2 ;;
                     ret (choice, cs.2 ++ [choice]))
                  (first, [] ++ [first]) (advance w))
        as (cs & w1 & Hrun & _ & _ & Hall & Hne).
      + split; [done|]. split; [done|]. split; [|done].
        intros x Hx. apply list_elem_of_singleton in Hx. by subst x.
      + intros i x [c sample] w' _ (Hw' & Hc & Hall & _). cbn [fst snd] in *.
        destruct (sample_step_run w' d c sample Hd0 Hd1) as (c' & w'' & Hstep & Hw'' & Hc');
          [by rewrite Hw'|].
        exists (c', sample ++ [c']), w''. split; [exact Hstep|].
        cbn [fst snd]. rewrite Hw' in *.
        split; [done|]. split; [done|]. split.
        * intros y [Hy|Hy]%elem_of_app; [by apply Hall|].
          apply list_elem_of_singleton in Hy. by subst y.
        * by destruct sample.
      + by exists cs, w1.
    - exists (first, [] ++ [first]), (advance w). split; [done|].
      split; [|done]. intros x Hx. apply list_elem_of_singleton in Hx.
      by subst x. }
  (* the tally and the normalisation *)
  destruct (tally_run w1 cs.2 ((λ _, 0) <$> g)) as (tallied & Htally & Hdom & Htot & Hpos).
  { intros x Hx. rewrite dom_fmap_L. by apply Hsample. }
  assert (Qc_of_nat (length cs.2) ≠ 0) as Hlen.
  { rewrite Qc_of_nat_0. by destruct (cs.2). }
  destruct (normalise_run w1 (Qc_of_nat (length cs.2)) tallied Hlen)
    as (solution & Hnorm & Hl).
  assert (solution = (λ v, v / Qc_of_nat (length cs.2)) <$> tallied) as ->.
  { apply map_eq. intros p. by rewrite Hl, lookup_fmap. }
  eexists _, w1. split; [|split; [|split]].
  - unfold sample_pagerank.
    rewrite (bind_Ret _ _ _ w (keys g)) by done.
    destruct (for_each_pure (St := gmap string Qc) (λ _, True)
                (λ s k, <[k := 0]> s) (keys g)
                (λ key solution, ret (<[key := 0]> solution)) ∅ w)
      as [Hinit _]; [done|done|].
    rewrite (bind_Ret _ _ _ _ _ Hinit), const_dict_fmap.
    rewrite (bind_Ret _ _ _ _ _ Hchoice).
    rewrite (bind_Ret _ _ _ _ _ Hloop).
    rewrite (bind_Ret _ _ _ _ _ Htally).
    exact Hnorm.
  - by rewrite dom_fmap_L, Hdom, dom_fmap_L.
  - intros p v. rewrite lookup_fmap.
    destruct (tallied !! p) as [c|] eqn:Hc; [|done]. intros [= <-].
    apply Qc_div_nonneg; [|apply Qc_of_nat_nonneg].
    eapply Hpos; [|exact Hc]. intros q u. rewrite lookup_fmap.
    destruct (g !! q); [|done]. by intros [= <-].
  - rewrite dict_total_fmap.
    rewrite (Qsum_ext _ (λ kv, / Qc_of_nat (length cs.2) * kv.2))
      by (intros kv _; unfold Qcdiv; ring).
    rewrite Qsum_scale.
    change (Qsum snd (map_to_list tallied)) with (dict_total tallied).
    rewrite Htot.
    rewrite dict_total_fmap, Qsum_const. field. done.
Qed.

(** *** When the iterative estimator keeps the total at one *)

Section total.
Context (g : gmap string (gset string)).
Hypothesis Hg : g ≠ ∅.
(** Every link leads to a page of the corpus. *)
Hypothesis Hclosed : ∀ w links, g !! w = Some links → links ⊆ dom g.
(** Every page is handed something by some page: the zero-addition
    substitution never applies. *)
Hypothesis Hinbound :
  ∀ p, p ∈ keys g → ∃ w, w ∈ keys g ∧ link_weight g p w ≠ 0.

Lemma link_weight_column_closed (w : string) :
  w ∈ keys g → Qsum (λ p, link_weight g p w) (keys g) = 1.
Proof.
  intros [links Hlinks]%elem_of_keys.
  unfold link_weight. cbn zeta.
  replace (default ∅ (g !! w)) with links by (by rewrite Hlinks).
  rewrite Qsum_plus, Qsum_const, length_keys.
  rewrite (Qsum_filter (1 / set_len links) (λ p, p ∈ links)).
  destruct (decide (links = ∅)) as [Hl|Hl].
  - rewrite Hl. unfold set_len. rewrite size_empty.
    rewrite (proj2 (Qc_of_nat_0 0)) by done.
    rewrite Qc_mul_inv_self by by apply N_ne_0.
    replace (1 / 0) with (Q2Qc 0) by (by apply Qc_is_canon).
    ring.
  - assert (length (filter (λ p, p ∈ links) (keys g)) = size links) as Hcount.
    { change (size links) with (length (elements links)).
      apply Permutation_length, NoDup_Permutation.
      - apply NoDup_filter, NoDup_keys.
      - apply NoDup_elements.
      - intros p.
        rewrite list_elem_of_filter, elem_of_elements, elem_of_keys_dom.
        split; [by intros [? _]|]. intros Hp. split; [done|].
        by eapply Hclosed. }
    rewrite Hcount. fold (set_len links). rewrite Qc_mul_inv_self; [ring|].
    unfold set_len. rewrite Qc_of_nat_0. intros Hs. apply Hl.
    by apply leibniz_equiv, size_empty_iff.
Qed.

Lemma spec_addition_pos (r : gmap string Qc) (p : string) :
  positive_on g r → p ∈ keys g → spec_addition g r p ≠ 0.
Proof.
  intros Hr Hp Hz. destruct (Hinbound p Hp) as (w & Hw & Hne).
  apply Hne. by eapply spec_addition_zero_weights.
Qed.

Lemma next_ranks_total (d : Qc) (r : gmap string Qc) :
  positive_on g r → dom r = dom g →
  dict_total (next_ranks g d r) = (1 - d) + d * dict_total r.
Proof.
  intros Hr Hdom.
  rewrite (dict_total_dom _ g) by apply dom_next_ranks.
  rewrite (dict_total_dom r g) by done.
  rewrite (Qsum_ext _ (λ p, (1 - d) / Qc_of_nat (size g)
                            + d * spec_addition g r p)).
  2:{ intros p Hp. rewrite rank_of_next_ranks by done.
      unfold spec_new_rank, spec_addition'.
      by rewrite decide_False by by apply spec_addition_pos. }
  rewrite Qsum_plus, Qsum_const, length_keys, Qsum_scale.
  rewrite (Qsum_ext _ (λ p, Qsum (λ w, rank_of r w * link_weight g p w)
                              (keys g)))
    by (intros p _; apply spec_addition_weights).
  rewrite Qsum_swap.
  rewrite (Qsum_ext _ (rank_of r)).
  2:{ intros w Hw. rewrite Qsum_scale, link_weight_column_closed by done. ring. }
  field. by apply N_ne_0.
Qed.

Lemma ranks_at_total (d : Qc) (k : nat) :
  0 ≤ d → d < 1 → dict_total (ranks_at g d k) = 1.
Proof.
  intros Hd0 Hd1. induction k as [|k IH].
  - change (ranks_at g d 0) with (initial_ranks g).
    unfold initial_ranks. rewrite dict_total_fmap, Qsum_const.
    rewrite length_map_to_list. field. by apply N_ne_0.
  - rewrite ranks_at_S, next_ranks_total, IH;
      [ring|by apply ranks_at_positive|apply dom_ranks_at].
Qed.
End total.

(** *** The total of the transition model *)

(** For a page with out-links, all of them pages of the corpus, the
    distribution of the transition model sums to one. *)
Lemma transition_model_total_linked (w : world) (page : string) (d : Qc)
    (links : gset string) :
  graph_obj w !! page = Some links →
  links ≠ ∅ → links ⊆ dom (graph_obj w) →
  ∃ solution,
    transition_model page d w = (Ret solution, bump_tm w)
    ∧ dict_total solution = 1.
Proof.
  intros Hpage Hne Hsub.
  destruct (transition_model_total w page d links Hpage) as (sol & Hrun & Ht).
  exists sol. split; [exact Hrun|]. rewrite Ht.
  assert (length (filter (λ p, p ∈ links) (keys (graph_obj w))) = size links)
    as ->.
  { change (size links) with (length (elements links)).
    apply Permutation_length, NoDup_Permutation.
    - apply NoDup_filter, NoDup_keys.
    - apply NoDup_elements.
    - intros p. rewrite list_elem_of_filter, elem_of_elements, elem_of_keys_dom.
      split; [by intros [? _]|]. intros Hp. split; [done|by apply Hsub]. }
  assert (set_len links ≠ 0) as Hlen.
  { unfold set_len. rewrite Qc_of_nat_0. intros Hs. apply Hne.
    by apply leibniz_equiv, size_empty_iff. }
  fold (set_len links). field. done.
Qed.

(** For a page without out-links it sums to [1 - damping]. *)
Lemma transition_model_total_dangling (w : world) (page : string) (d : Qc) :
  graph_obj w !! page = Some ∅ →
  ∃ solution,
    transition_model page d w = (Ret solution, bump_tm w)
    ∧ dict_total solution = 1 - d.
Proof.
  intros Hpage.
  destruct (transition_model_total w page d ∅ Hpage) as (sol & Hrun & Ht).
  exists sol. split; [exact Hrun|]. rewrite Ht.
  pose proof (inbound_count (graph_obj w) ∅) as Hcount.
  rewrite size_empty in Hcount.
  rewrite (proj2 (Qc_of_nat_0 _)) by lia. ring.
Qed.

(** On a graph whose links all lead to pages of the corpus and in which
    every page is handed something, what [iterate_pagerank] returns sums
    to one. *)
Lemma iterate_pagerank_total_one (w : world) (d : Qc) (fuel : nat)
    (ranks : gmap string Qc) (w' : world) :
  graph_obj w ≠ ∅ →
  (∀ p links, graph_obj w !! p = Some links → links ⊆ dom (graph_obj w)) →
  (∀ p, p ∈ keys (graph_obj w) →
     ∃ q, q ∈ keys (graph_obj w) ∧ link_weight (graph_obj w) p q ≠ 0) →
  0 ≤ d → d < 1 →
  iterate_pagerank fuel d w = (Ret ranks, w') →
  dict_total ranks = 1.
Proof.
  intros Hg Hclosed Hinbound Hd0 Hd1 Hrun.
  apply (iterate_pagerank_result w (graph_obj w) d eq_refl Hg) in Hrun
    as [_ (j & -> & _)].
  by apply ranks_at_total.
Qed.

(** ** The iterative estimator on IEEE doubles *)

Section binary64.
Import PrimFloat.

Lemma binary64_iterate_pagerank_unfold (fuel : nat)
    (corpus : Binary64.odict (gset string)) (d rf : float)
    (old new : Binary64.odict float) (w : world) :
  for_each (Binary64.keys corpus) []
    (λ key old_pagerank,
       v <~ Binary64.py_div 1%float (length corpus) ;;
       ret (Binary64.dict_set old_pagerank key v)) w
  = (Ret old, w) →
  for_each (Binary64.keys corpus) []
    (λ key new_pagerank, ret (Binary64.dict_set new_pagerank key 0%float)) w
  = (Ret new, w) →
  Binary64.py_div (1 - d)%float (length corpus) w = (Ret rf, w) →
  Binary64.iterate_pagerank fuel corpus d w
  = Binary64.iterate_loop fuel corpus d rf old new w.
Proof.
  intros Hold Hnew Hrf. unfold Binary64.iterate_pagerank.
  rewrite (bind_Ret _ _ _ _ _ Hold), (bind_Ret _ _ _ _ _ Hnew).
  by rewrite (bind_Ret _ _ _ _ _ Hrf).
Qed.

(** Two rank dicts that the update round maps to each other, neither
    step passing the convergence test: the loop never leaves them. *)
Lemma binary64_iterate_loop_swing (corpus : Binary64.odict (gset string))
    (d rf : float) (r0 r1 new : Binary64.odict float)
    (w : world) :
  Binary64.update_round corpus d rf r0 new w = (Ret r1, w) →
  Binary64.update_round corpus d rf r1 r1 w = (Ret r0, w) →
  Binary64.update_round corpus d rf r0 r0 w = (Ret r1, w) →
  Binary64.convergence_test r0 r1 w = (Ret false, w) →
  Binary64.convergence_test r1 r0 w = (Ret false, w) →
  ∀ fuel, Binary64.iterate_loop fuel corpus d rf r0 new w = (OutOfFuel, w).
Proof.
  intros Hfirst H10 H01 Hc01 Hc10.
  assert (∀ fuel,
            Binary64.iterate_loop fuel corpus d rf r0 r0 w = (OutOfFuel, w)
            ∧ Binary64.iterate_loop fuel corpus d rf r1 r1 w
              = (OutOfFuel, w)) as Hcycle.
  { induction fuel as [|fuel [IH0 IH1]]; [done|].
    split; cbn [Binary64.iterate_loop].
    - rewrite (bind_Ret _ _ _ _ _ H01), (bind_Ret _ _ _ _ _ Hc01). exact IH1.
    - rewrite (bind_Ret _ _ _ _ _ H10), (bind_Ret _ _ _ _ _ Hc10). exact IH0. }
  intros [|fuel]; [done|]. cbn [Binary64.iterate_loop].
  rewrite (bind_Ret _ _ _ _ _ Hfirst), (bind_Ret _ _ _ _ _ Hc01).
  apply Hcycle.
Qed.

(** Where the rounds settle the loop on doubles is left: on the complete
    bipartite graph [k34] with damping factor [0.85] round 24 is the
    first to pass the test. *)
Lemma binary64_iterate_pagerank_returns :
  ∃ ranks, ∀ w,
    Binary64.iterate_pagerank 23 Binary64.k34 Binary64.damping_85 w
    = (OutOfFuel, w)
    ∧ Binary64.iterate_pagerank 24 Binary64.k34 Binary64.damping_85 w
      = (Ret ranks, w).
Proof.
  eexists. intros w. split; vm_compute; reflexivity.
Qed.

End binary64.

(** * The claims *)

(** C1. One update round of [iterate_pagerank] on a non-empty graph sets,
    for every page [p], [new_rank[p] = (1 - damping) / N + damping *
    addition(p)], where [addition(p)] sums over all pages [w]
    [old_rank[w] / |graph[w]|] when [p ∈ graph[w]], plus [old_rank[w] / N]
    when [graph[w]] is empty, and an [addition(p)] that is exactly zero is
    replaced by [1 / N].  The round is synchronous: whatever
    [new_pagerank] held before it ([prev]), the new values are computed
    from [old_rank] alone. *)
Theorem update_round_formula (w : world) (damping : Qc)
    (old_rank prev : gmap string Qc) :
  graph_obj w ≠ ∅ →
  dom old_rank = dom (graph_obj w) →
  ∃ new_rank,
    update_round damping ((1 - damping) / Qc_of_nat (size (graph_obj w)))
      old_rank prev w
    = (Ret new_rank, w)
    ∧ ∀ p, p ∈ dom (graph_obj w) →
        new_rank !! p = Some (spec_new_rank (graph_obj w) damping old_rank p).
Proof.
  intros Hg Hdom.
  destruct (update_round_run w old_rank Hg Hdom damping
              ((1 - damping) / Qc_of_nat (size (graph_obj w))) prev)
    as (new & Hrun & Hl).
  exists new. split; [exact Hrun|]. intros p Hp.
  by rewrite Hl, decide_True.
Qed.

Lemma update_round_formula_witness :
  ∃ new_rank,
    update_round d85 ((1 - d85) / Qc_of_nat (size (graph_obj w_ex)))
      (initial_ranks corpus_ex) ∅ w_ex
    = (Ret new_rank, w_ex)
    ∧ ∀ p, p ∈ dom (graph_obj w_ex) →
        new_rank !! p
        = Some (spec_new_rank (graph_obj w_ex) d85 (initial_ranks corpus_ex) p).
Proof.
  apply (update_round_formula w_ex d85 (initial_ranks corpus_ex) ∅).
  - graph_nonempty.
  - vm_compute. reflexivity.
Defined.

(** C2. For a graph that is not empty, a page that is one of its keys and
    a damping factor in [0, 1], [transition_model] returns a distribution
    over exactly the pages of the graph in which every page has the base
    probability [(1 - damping) / N]; a page that is a member of
    [graph[current_page]] has [damping / |graph[current_page]|] on top of
    it; and when [graph[current_page]] is empty every page has exactly
    the base probability. *)
Theorem transition_model_distribution (w : world) (page : string)
    (damping : Qc) (links : gset string) :
  graph_obj w ≠ ∅ →
  graph_obj w !! page = Some links →
  0 ≤ damping ≤ 1 →
  ∃ solution,
    transition_model page damping w = (Ret solution, bump_tm w)
    ∧ dom solution = dom (graph_obj w)
    ∧ (∀ p, p ∈ dom (graph_obj w) → p ∈ links →
         solution !! p
         = Some ((1 - damping) / Qc_of_nat (size (graph_obj w))
                 + damping / set_len links))
    ∧ (∀ p, p ∈ dom (graph_obj w) → p ∉ links →
         solution !! p
         = Some ((1 - damping) / Qc_of_nat (size (graph_obj w))))
    ∧ (links = ∅ →
       ∀ p, p ∈ dom (graph_obj w) →
         solution !! p
         = Some ((1 - damping) / Qc_of_nat (size (graph_obj w)))).
Proof.
  intros _ Hpage _.
  destruct (transition_model_run w page damping links Hpage)
    as (sol & Hrun & Hl).
  assert (∀ p, p ∈ dom (graph_obj w) → p ∉ links →
            sol !! p = Some ((1 - damping) / Qc_of_nat (size (graph_obj w))))
    as Hout.
  { intros p Hp Hnot. rewrite Hl, decide_True, decide_False by done.
    f_equal. ring. }
  exists sol. repeat split.
  - exact Hrun.
  - exact (dom_of_lookup sol (graph_obj w) _ Hl).
  - intros p Hp Hin. by rewrite Hl, !decide_True.
  - exact Hout.
  - intros -> p Hp. apply Hout; [done|]. apply not_elem_of_empty.
Qed.

Lemma transition_model_distribution_witness :
  ∃ solution,
    transition_model "1.html" d85 w_ex
    = (Ret solution, bump_tm w_ex)
    ∧ dom solution = dom corpus_ex
    ∧ (∀ p, p ∈ dom corpus_ex → p ∈ ({[ "2.html"; "3.html" ]} : gset string) →
         solution !! p
         = Some ((1 - d85) / Qc_of_nat (size corpus_ex)
                 + d85 / set_len {[ "2.html"; "3.html" ]}))
    ∧ (∀ p, p ∈ dom corpus_ex → p ∉ ({[ "2.html"; "3.html" ]} : gset string) →
         solution !! p = Some ((1 - d85) / Qc_of_nat (size corpus_ex)))
    ∧ (({[ "2.html"; "3.html" ]} : gset string) = ∅ →
       ∀ p, p ∈ dom corpus_ex →
         solution !! p = Some ((1 - d85) / Qc_of_nat (size corpus_ex))).
Proof.
  apply (transition_model_distribution w_ex
           "1.html" d85 {[ "2.html"; "3.html" ]}%string).
  - graph_nonempty.
  - vm_compute; reflexivity.
  - split; by vm_compute.
Defined.

(** C3, at a failing input.  On the corpus of the repository's own test,
    [{"1.html": {"2.html", "3.html"}, "2.html": {"3.html"},
      "3.html": {"2.html"}}], with damping factor [0.85],
    [iterate_pagerank] returns a distribution whose values sum to more
    than [2]: well outside [1e-6] of [1]. *)
Theorem iterate_pagerank_total_exceeds_one :
  ∃ ranks,
    iterate_pagerank 100 d85 w_ex
    = (Ret ranks, w_ex)
    ∧ 2 < dict_total ranks
    ∧ ¬ Qcabs (dict_total ranks - 1) ≤ Q2Qc (1 # 1000000).
Proof.
  eexists. split; [vm_compute; reflexivity|]. split; by vm_compute.
Qed.

(** C4, at a failing input.  On the corpus [{"1": {"2"}, "2": set()}]
    with damping factor [0.85], the distribution of [transition_model]
    for the page ["2"], which has no out-links, sums to [0.15], not to
    [1]. *)
Theorem transition_model_dangling_sum :
  ∃ solution,
    transition_model "2" d85 (world_of with_dangling tape0)
    = (Ret solution, bump_tm (world_of with_dangling tape0))
    ∧ dict_total solution = Q2Qc (15 # 100)
    ∧ dict_total solution ≠ 1.
Proof.
  destruct (transition_model_total_dangling (world_of with_dangling tape0)
              "2" d85) as (sol & Hrun & Ht); [vm_compute; reflexivity|].
  exists sol. split; [exact Hrun|]. rewrite Ht. split.
  - apply Qc_is_canon. by vm_compute.
  - intros H. apply (f_equal this) in H. by vm_compute in H.
Qed.

Section binary64_run.
Import PrimFloat.

(** C5, at a failing input.  On the complete bipartite graph of the pages
    [a1 a2 a3] and [b1 b2 b3 b4], with the damping factor [1 - 2^-53] (the
    largest double below one), [iterate_pagerank] on IEEE doubles never
    returns: a round takes the initial ranks [1/7] to [0.190...] for the
    [a] pages and [0.107...] for the [b] pages, the next round takes
    these back to the initial ranks bit for bit, and neither round
    passes the test of line 202.  Whatever the fuel, the loop runs out
    of it. *)
Theorem binary64_iterate_pagerank_never_returns :
  (0 <=? Binary64.below_one)%float = true
  ∧ (Binary64.below_one <? 1)%float = true
  ∧ Binary64.k34 ≠ []
  ∧ ∀ fuel w,
      Binary64.iterate_pagerank fuel Binary64.k34 Binary64.below_one w
      = (OutOfFuel, w).
Proof.
  split; [reflexivity|]. split; [reflexivity|]. split; [done|].
  intros fuel w.
  etrans; [eapply binary64_iterate_pagerank_unfold; vm_compute; reflexivity|].
  eapply binary64_iterate_loop_swing; vm_compute; reflexivity.
Qed.

End binary64_run.

(** C6, as stated, fails: with [n = 0] on a non-empty graph
    [sample_pagerank] raises nothing and returns a distribution. *)
Lemma sample_pagerank_zero_samples_returns :
  (0 < 1)%Z
  ∧ ∃ solution w',
      sample_pagerank d85 0 w_ex = (Ret solution, w').
Proof.
  split; [lia|]. do 2 eexists. vm_compute. reflexivity.
Qed.

(** C6, amended.  Whenever [n < 1] or the graph is empty: if the graph is
    empty, [sample_pagerank] fails with the [IndexError] of
    [random.choice] on the empty list of pages, before any page is drawn
    and with no partial result; otherwise ([n < 1], graph not empty) the
    sample count is not checked and the call returns a distribution after
    one draw. *)
Theorem sample_pagerank_failure (w : world) (damping : Qc) (n : Z) :
  graph_obj w = ∅ ∨ (n < 1)%Z →
  if decide (graph_obj w = ∅)
  then sample_pagerank damping n w = (Raise IndexError, w)
  else ∃ solution, sample_pagerank damping n w = (Ret solution, advance w).
Proof.
  intros Hcase. destruct (decide (graph_obj w = ∅)) as [Hg|Hg].
  - by apply sample_pagerank_empty.
  - destruct Hcase as [Hg'|Hn]; [done|].
    destruct (sample_pagerank_single w damping n Hg) as (first & sol & _ & Hrun & _);
      [lia|].
    by exists sol.
Qed.

Lemma sample_pagerank_failure_witness :
  if decide (graph_obj w_empty = ∅)
  then sample_pagerank d85 5 w_empty = (Raise IndexError, w_empty)
  else ∃ solution, sample_pagerank d85 5 w_empty = (Ret solution, advance w_empty).
Proof.
  apply (sample_pagerank_failure w_empty d85 5).
  left. reflexivity.
Defined.

(** C7, as stated, fails: with [damping = 1] on a non-empty graph
    [iterate_pagerank] raises nothing; on the two-page cycle it returns
    after one round. *)
Lemma iterate_pagerank_damping_one_returns :
  1 ≤ 1
  ∧ ∃ ranks w',
      iterate_pagerank 1 1 (world_of two_cycle tape0) = (Ret ranks, w').
Proof.
  split; [done|]. do 2 eexists. vm_compute. reflexivity.
Qed.

(** C7, amended.  Whenever the graph is empty or [damping ≥ 1]: if the
    graph is empty, [iterate_pagerank] fails with the [ZeroDivisionError]
    of computing [random_factor], before the first round; otherwise
    ([damping ≥ 1], graph not empty) the damping factor is not checked
    and no exception is raised. *)
Theorem iterate_pagerank_failure (w : world) (fuel : nat) (damping : Qc) :
  graph_obj w = ∅ ∨ 1 ≤ damping →
  if decide (graph_obj w = ∅)
  then iterate_pagerank fuel damping w = (Raise ZeroDivisionError, w)
  else ∀ e, (iterate_pagerank fuel damping w).1 ≠ Raise e.
Proof.
  intros _. destruct (decide (graph_obj w = ∅)) as [Hg|Hg].
  - by apply iterate_pagerank_empty.
  - intros e. by apply iterate_pagerank_no_exception.
Qed.

Lemma iterate_pagerank_failure_witness :
  if decide (graph_obj w_empty = ∅)
  then iterate_pagerank 10 d85 w_empty = (Raise ZeroDivisionError, w_empty)
  else ∀ e, (iterate_pagerank 10 d85 w_empty).1 ≠ Raise e.
Proof.
  apply (iterate_pagerank_failure w_empty 10 d85).
  left. reflexivity.
Defined.

(** C8. For a non-empty graph and any damping factor, [sample_pagerank]
    with [n = 1] returns a one-hot distribution: the first page, chosen
    uniformly by the one draw the call makes, has value [1] and every
    other page has value [0]; [transition_model] is not called. *)
Theorem sample_pagerank_one_hot (w : world) (damping : Qc) :
  graph_obj w ≠ ∅ →
  ∃ first solution w',
    keys (graph_obj w)
      !! (N.to_nat (entropy w (cursor w)) mod size (graph_obj w))%nat
    = Some first
    ∧ sample_pagerank damping 1 w = (Ret solution, w')
    ∧ solution !! first = Some 1
    ∧ (∀ p, p ∈ dom (graph_obj w) → p ≠ first → solution !! p = Some 0)
    ∧ dom solution = dom (graph_obj w)
    ∧ tm_calls w' = tm_calls w
    ∧ cursor w' = S (cursor w).
Proof.
  intros Hg.
  destruct (sample_pagerank_single w damping 1 Hg) as (first & sol & Hf & Hrun & Hl);
    [lia|].
  assert (first ∈ dom (graph_obj w)) as Hin.
  { apply elem_of_keys_dom. by eapply list_elem_of_lookup_2. }
  exists first, sol, (advance w). repeat split.
  - exact Hf.
  - exact Hrun.
  - by rewrite Hl, decide_True.
  - intros p Hp Hne. by rewrite Hl, decide_False, decide_True.
  - apply set_eq. intros p. rewrite elem_of_dom, Hl.
    destruct (decide (p = first)) as [->|Hne]; [by split; [|eexists]|].
    destruct (decide (p ∈ dom (graph_obj w))); [by split; [|eexists]|].
    split; [by intros [? ?]|done].
Qed.

Lemma sample_pagerank_one_hot_witness :
  ∃ first solution w',
    keys (graph_obj w_ex)
      !! (N.to_nat (entropy w_ex (cursor w_ex)) mod size (graph_obj w_ex))%nat
    = Some first
    ∧ sample_pagerank d85 1 w_ex = (Ret solution, w')
    ∧ solution !! first = Some 1
    ∧ (∀ p, p ∈ dom (graph_obj w_ex) → p ≠ first → solution !! p = Some 0)
    ∧ dom solution = dom (graph_obj w_ex)
    ∧ tm_calls w' = tm_calls w_ex
    ∧ cursor w' = S (cursor w_ex).
Proof.
  apply (sample_pagerank_one_hot w_ex d85).
  graph_nonempty.
Defined.

(** C9. None of [transition_model], [sample_pagerank] and
    [iterate_pagerank] mutates the graph: whatever the arguments and
    whatever the outcome (a result, an exception, no fuel left), the
    graph object after the call is the graph object before it. *)
Theorem graph_not_mutated :
  (∀ page damping, frames_graph (transition_model page damping))
  ∧ (∀ damping n, frames_graph (sample_pagerank damping n))
  ∧ (∀ fuel damping, frames_graph (iterate_pagerank fuel damping)).
Proof.
  split; [|split].
  - apply frames_transition_model.
  - apply frames_sample_pagerank.
  - apply frames_iterate_pagerank.
Qed.

(** C10. For a non-empty graph and [0 ≤ damping < 1], every value of the
    distribution [iterate_pagerank] returns is at least
    [(1 - damping) / N], hence strictly positive. *)
Theorem iterate_pagerank_lower_bound (w : world) (damping : Qc) :
  graph_obj w ≠ ∅ →
  0 ≤ damping →
  damping < 1 →
  ∀ fuel ranks w' p v,
    iterate_pagerank fuel damping w = (Ret ranks, w') →
    ranks !! p = Some v →
    (1 - damping) / Qc_of_nat (size (graph_obj w)) ≤ v ∧ 0 < v.
Proof.
  intros Hg Hd0 Hd1 fuel ranks w' p v Hrun Hv. set (g := graph_obj w).
  apply (iterate_pagerank_result w g damping eq_refl Hg) in Hrun
    as [_ (j & -> & _)].
  rewrite ranks_at_S, lookup_next_ranks in Hv.
  destruct (decide (p ∈ dom g)) as [Hp|Hp]; [|done].
  injection Hv as <-.
  assert ((1 - damping) / Qc_of_nat (size g)
          ≤ spec_new_rank g damping (ranks_at g damping j) p) as Hlow.
  { apply spec_new_rank_lower; [exact Hd0|].
    intros q Hq. by apply Qclt_le_weak, ranks_at_positive. }
  split; [exact Hlow|].
  eapply Qclt_le_trans; [by apply base_term_pos|exact Hlow].
Qed.

Lemma iterate_pagerank_lower_bound_witness :
  ∃ ranks v,
    iterate_pagerank 100 d85 w_ex = (Ret ranks, w_ex)
    ∧ ranks !! "1.html"%string = Some v
    ∧ (1 - d85) / Qc_of_nat (size (graph_obj w_ex)) ≤ v ∧ 0 < v.
Proof.
  assert (∃ ranks v, iterate_pagerank 100 d85 w_ex = (Ret ranks, w_ex)
                     ∧ ranks !! "1.html"%string = Some v)
    as (ranks & v & Hrun & Hv)
    by (do 2 eexists; split; vm_compute; reflexivity).
  exists ranks, v. split; [exact Hrun|]. split; [exact Hv|].
  apply (iterate_pagerank_lower_bound w_ex d85 ltac:(graph_nonempty)
           ltac:(by vm_compute) ltac:(by vm_compute)
           100%nat ranks w_ex "1.html"%string v Hrun Hv).
Defined.

(** * Further properties of the code *)

(** ** The crawler *)

Lemma ends_with_spec (s suffix : string) :
  ends_with s suffix = true ↔ ∃ pre, s = (pre +:+ suffix)%string.
Proof.
  induction s as [|a s IH]; cbn [ends_with].
  - rewrite orb_false_r, String.eqb_eq. split.
    + intros <-. by exists EmptyString.
    + intros [pre Hpre]. destruct pre; [done|discriminate Hpre].
  - rewrite orb_true_iff, String.eqb_eq, IH. split.
    + intros [<-|[pre ->]]; [by exists EmptyString|by exists (String a pre)].
    + intros [[|b pre] Hpre]; [by left|].
      injection Hpre as <- ->. right. by exists pre.
Qed.

Lemma dom_foldl_crawl_step (listing : list (string * list string))
    (pages : gmap string (gset string)) :
  dom (foldl crawl_step pages listing) = dom pages ∪ html_names listing.
Proof.
  revert pages. induction listing as [|[f ls] listing IH]; intros pages.
  - unfold html_names. cbn. set_solver.
  - cbn [foldl]. rewrite IH. unfold html_names, crawl_step.
    rewrite fmap_cons, filter_cons. cbn [fst snd].
    destruct (ends_with f ".html") eqn:Hf.
    + rewrite decide_True by done. rewrite dom_insert_L. set_solver.
    + rewrite decide_False by done. done.
Qed.

Lemma lookup_foldl_crawl_step (listing : list (string * list string))
    (pages : gmap string (gset string)) (f : string) (links : gset string) :
  foldl crawl_step pages listing !! f = Some links →
  pages !! f = Some links
  ∨ ∃ ls, (f, ls) ∈ listing ∧ links = list_to_set ls ∖ {[f]}.
Proof.
  revert pages. induction listing as [|[f' ls] listing IH]; intros pages Hl.
  - by left.
  - cbn [foldl] in Hl. apply IH in Hl as [Hl|(ls' & Hin & ->)].
    + unfold crawl_step in Hl. cbn [fst snd] in Hl.
      destruct (ends_with f' ".html"); [|by left].
      destruct (decide (f = f')) as [->|Hne].
      * rewrite lookup_insert_eq in Hl. injection Hl as <-.
        right. exists ls. split; [left|done].
      * rewrite lookup_insert_ne in Hl by done. by left.
    + right. exists ls'. split; [by right|done].
Qed.

Lemma lookup_foldl_update {V} (h : V → V) (dflt : V) (l : list string)
    (s : gmap string V) (p : string) :
  NoDup l →
  foldl (λ s k, <[k := h (default dflt (s !! k))]> s) s l !! p
  = if decide (p ∈ l) then Some (h (default dflt (s !! p))) else s !! p.
Proof.
  intros Hl. revert s. induction Hl as [|k l Hk Hl IH]; intros s; cbn [foldl].
  - rewrite decide_False; [done|]. apply not_elem_of_nil.
  - rewrite IH. destruct (decide (p = k)) as [->|Hne].
    + rewrite (decide_False (P := k ∈ l)) by done.
      rewrite lookup_insert_eq. rewrite decide_True; [done|left].
    + rewrite lookup_insert_ne by done.
      destruct (decide (p ∈ l)) as [Hp|Hp].
      * rewrite decide_True; [done|by right].
      * rewrite decide_False; [done|]. by intros [?|?]%elem_of_cons.
Qed.

(** What [crawl] returns: the scanned pages, each set of links cut down
    to the names that are pages. *)
Lemma crawl_run (listing : list (string * list string)) (w : world) :
  crawl listing w
  = (Ret (filter (λ link, link ∈ dom (scanned listing)) <$> scanned listing),
     w).
Proof.
  unfold crawl.
  destruct (for_each_pure (λ _, True) crawl_step listing
              (λ entry pages,
                 let filename := entry.1 in
                 if ends_with filename ".html" then
                   let links := entry.2 in
                   ret (<[filename := list_to_set links ∖ {[filename]}]> pages)
                 else ret pages) ∅ w) as [Hscan _]; [done| |].
  { intros [f ls] pages _ _. split; [|done]. unfold crawl_step. cbn.
    by destruct (ends_with f ".html"). }
  rewrite (bind_Ret _ _ _ _ _ Hscan). fold (scanned listing).
  set (pages1 := scanned listing).
  destruct (for_each_pure (λ s : gmap string (gset string), dom s = dom pages1)
              (λ s k, <[k := filter (λ link, link ∈ dom pages1)
                               (default ∅ (s !! k))]> s)
              (keys pages1)
              (λ filename pages,
                 links <~ dict_get pages filename ;;
                 ret (<[filename := filter (λ link, link ∈ dom pages) links]>
                        pages))
              pages1 w) as [Hloop _]; [done| |].
  { intros f s Hf Hs. apply elem_of_keys_dom in Hf. rewrite <- Hs in Hf.
    pose proof Hf as Hin. apply elem_of_dom in Hf as [links Hlinks]. split.
    - rewrite (bind_Ret _ _ _ w links) by by apply dict_get_Ret.
      by rewrite Hlinks, Hs.
    - rewrite dom_insert_L, <- Hs. apply (anti_symm (⊆)).
      + apply union_least; [by apply singleton_subseteq_l|done].
      + apply union_subseteq_r. }
  rewrite Hloop. do 2 f_equal. apply map_eq. intros f.
  rewrite (lookup_foldl_update (filter (λ link, link ∈ dom pages1)) ∅)
    by apply NoDup_keys.
  rewrite lookup_fmap. destruct (decide (f ∈ keys pages1)) as [Hf|Hf].
  - apply elem_of_keys in Hf as [links ->]. done.
  - destruct (pages1 !! f) eqn:Hl; [|done].
    exfalso. apply Hf, elem_of_keys. by eexists.
Qed.

Lemma elem_of_html_names (listing : list (string * list string)) (f : string) :
  f ∈ html_names listing ↔ f ∈ listing.*1 ∧ ends_with f ".html" = true.
Proof.
  unfold html_names. rewrite elem_of_list_to_set, list_elem_of_filter.
  by split; intros [? ?].
Qed.

Lemma dom_scanned (listing : list (string * list string)) :
  dom (scanned listing) = html_names listing.
Proof.
  unfold scanned. rewrite dom_foldl_crawl_step, dom_empty_L.
  apply (left_id_L ∅ (∪)).
Qed.

Lemma listing_functional (listing : list (string * list string))
    (f : string) (ls ls' : list string) :
  NoDup listing.*1 → (f, ls) ∈ listing → (f, ls') ∈ listing → ls = ls'.
Proof.
  induction listing as [|[g l] listing IH]; intros Hnd H1 H2.
  - by apply not_elem_of_nil in H1.
  - rewrite fmap_cons in Hnd. apply NoDup_cons in Hnd as [Hg Hnd].
    apply elem_of_cons in H1 as [H1|H1]; apply elem_of_cons in H2 as [H2|H2].
    + congruence.
    + injection H1 as -> ->. exfalso. apply Hg.
      apply list_elem_of_fmap. by exists (g, ls').
    + injection H2 as -> ->. exfalso. apply Hg.
      apply list_elem_of_fmap. by exists (g, ls).
    + by apply IH.
Qed.

(** X1. The pages of the corpus [crawl] returns are exactly the entries of
    the directory whose name ends in [.html]. *)
Theorem crawl_pages (listing : list (string * list string)) (w w' : world)
    (pages : gmap string (gset string)) :
  crawl listing w = (Ret pages, w') →
  ∀ f, f ∈ dom pages ↔ (f ∈ listing.*1 ∧ ends_with f ".html" = true).
Proof.
  rewrite crawl_run. intros [= <- _] f.
  by rewrite dom_fmap_L, dom_scanned, elem_of_html_names.
Qed.

Lemma crawl_pages_witness :
  crawl listing_ex w_ex = (Ret corpus_ex, w_ex)
  ∧ ∀ f, f ∈ dom corpus_ex
         ↔ (f ∈ listing_ex.*1 ∧ ends_with f ".html" = true).
Proof.
  assert (crawl listing_ex w_ex = (Ret corpus_ex, w_ex)) as Hrun
    by (vm_compute; reflexivity).
  split; [exact Hrun|].
  apply (crawl_pages listing_ex w_ex w_ex corpus_ex Hrun).
Defined.

Lemma crawl_result_closed (listing : list (string * list string))
    (w w' : world) (pages : gmap string (gset string)) (f : string)
    (links : gset string) :
  crawl listing w = (Ret pages, w') →
  pages !! f = Some links → (f ∉ links) ∧ (links ⊆ dom pages).
Proof.
  rewrite crawl_run. intros [= <- _] Hl.
  rewrite lookup_fmap in Hl.
  destruct (scanned listing !! f) as [links1|] eqn:Hscan; [|done].
  injection Hl as <-. split.
  - intros [_ Hin]%elem_of_filter.
    apply lookup_foldl_crawl_step in Hscan as [Hscan|(ls & _ & ->)]; [done|].
    set_solver.
  - intros link [Hdom _]%elem_of_filter. by rewrite dom_fmap_L.
Qed.

(** X2. No page of the crawled corpus links to itself, and every link of the
    crawled corpus leads to a page of the corpus. *)
Theorem crawl_well_formed (listing : list (string * list string)) (w : world) :
  ∃ pages,
    crawl listing w = (Ret pages, w)
    ∧ ∀ f links,
        pages !! f = Some links → (f ∉ links) ∧ (links ⊆ dom pages).
Proof.
  eexists. split; [apply crawl_run|]. intros f links.
  apply (crawl_result_closed listing w w). apply crawl_run.
Qed.

(** X3. With distinct entry names, the links of a page [f] of the crawled
    corpus are exactly the names found in [f] that differ from [f] and
    are themselves [.html] entries of the directory. *)
Theorem crawl_links (listing : list (string * list string)) (w : world)
    (f : string) (ls : list string) :
  NoDup listing.*1 →
  (f, ls) ∈ listing →
  ends_with f ".html" = true →
  ∃ pages links,
    crawl listing w = (Ret pages, w)
    ∧ pages !! f = Some links
    ∧ ∀ link, link ∈ links
              ↔ (link ∈ ls ∧ link ≠ f
                 ∧ link ∈ listing.*1 ∧ ends_with link ".html" = true).
Proof.
  intros Hnd Hin Hf.
  assert (f ∈ dom (scanned listing)) as Hdom.
  { rewrite dom_scanned, elem_of_html_names. split; [|done].
    apply list_elem_of_fmap. by exists (f, ls). }
  apply elem_of_dom in Hdom as [links1 Hscan].
  pose proof Hscan as Hl.
  apply lookup_foldl_crawl_step in Hl as [Hl|(ls' & Hin' & ->)]; [done|].
  assert (ls' = ls) as -> by by eapply listing_functional.
  eexists _, _. split; [apply crawl_run|]. split.
  - by rewrite lookup_fmap, Hscan.
  - intros link. rewrite elem_of_filter, dom_scanned, elem_of_html_names.
    rewrite elem_of_difference, elem_of_list_to_set, elem_of_singleton.
    tauto.
Qed.

Lemma crawl_links_witness :
  ∃ pages links,
    crawl listing_ex w_ex = (Ret pages, w_ex)
    ∧ pages !! "1.html"%string = Some links
    ∧ ∀ link, link ∈ links
              ↔ (link ∈ ["2.html"; "3.html"; "1.html"; "style.css"; "2.html"]%string
                 ∧ link ≠ "1.html"%string
                 ∧ link ∈ listing_ex.*1 ∧ ends_with link ".html" = true).
Proof.
  apply (crawl_links listing_ex w_ex "1.html").
  - apply (bool_decide_unpack _). by vm_compute.
  - left.
  - reflexivity.
Defined.

(** X4. A directory without [.html] entries gives the empty corpus, on which
    the sampling estimator fails with [IndexError] and the iterative one
    with [ZeroDivisionError]. *)
Theorem crawl_no_pages (listing : list (string * list string))
    (w w1 : world) (d : Qc) (n : Z) (fuel : nat) :
  (∀ f, f ∈ listing.*1 → ends_with f ".html" = false) →
  ∃ pages,
    crawl listing w = (Ret pages, w)
    ∧ pages = ∅
    ∧ (graph_obj w1 = pages →
       sample_pagerank d n w1 = (Raise IndexError, w1)
       ∧ iterate_pagerank fuel d w1 = (Raise ZeroDivisionError, w1)).
Proof.
  intros Hnone. eexists. split; [apply crawl_run|].
  assert (scanned listing = ∅) as ->.
  { apply dom_empty_iff_L, set_eq. intros f.
    rewrite dom_scanned, elem_of_html_names. split; [|set_solver].
    intros [Hf Hhtml]. rewrite (Hnone f Hf) in Hhtml. done. }
  rewrite fmap_empty. split; [done|]. intros Hg. split.
  - by apply sample_pagerank_empty.
  - by apply iterate_pagerank_empty.
Qed.

Lemma crawl_no_pages_witness :
  ∃ pages,
    crawl [("style.css", ["1.html"]%list); ("notes.txt", [])]%string w_ex
    = (Ret pages, w_ex)
    ∧ pages = ∅
    ∧ (graph_obj w_empty = pages →
       sample_pagerank d85 10000 w_empty = (Raise IndexError, w_empty)
       ∧ iterate_pagerank 10 d85 w_empty
         = (Raise ZeroDivisionError, w_empty)).
Proof.
  apply (crawl_no_pages _ w_ex w_empty d85 10000 10).
  intros f Hf. cbn in Hf.
  repeat (apply elem_of_cons in Hf as [->|Hf]; [reflexivity|]).
  by apply not_elem_of_nil in Hf.
Defined.

(** X5. The corpus [crawl] returns keeps the transition model a probability
    distribution: for every page of it that has a link, the values of
    [transition_model] sum to one. *)
Theorem crawl_transition_model_total (listing : list (string * list string))
    (w0 w : world) (pages : gmap string (gset string)) (page : string)
    (links : gset string) (d : Qc) :
  crawl listing w0 = (Ret pages, w0) →
  graph_obj w = pages →
  pages !! page = Some links →
  links ≠ ∅ →
  ∃ solution,
    transition_model page d w = (Ret solution, bump_tm w)
    ∧ dict_total solution = 1.
Proof.
  intros Hcrawl Hw Hpage Hne.
  apply (transition_model_total_linked w page d links).
  - by rewrite Hw.
  - done.
  - rewrite Hw. by apply (crawl_result_closed listing w0 w0 pages page).
Qed.

Lemma crawl_transition_model_total_witness :
  ∃ solution,
    transition_model "1.html" d85 w_ex = (Ret solution, bump_tm w_ex)
    ∧ dict_total solution = 1.
Proof.
  apply (crawl_transition_model_total listing_ex w_ex w_ex corpus_ex
           "1.html" {[ "2.html"; "3.html" ]}%string d85).
  - vm_compute. reflexivity.
  - reflexivity.
  - vm_compute. reflexivity.
  - graph_nonempty.
Defined.

(** ** The transition model *)

(** X6. A page that is not a key of the corpus: [transition_model] fails, with
    [ZeroDivisionError] when the corpus is empty (computing
    [random_factor]) and with [KeyError] otherwise (at [corpus[page]], for
    the first page of the loop). *)
Theorem transition_model_missing_page (w : world) (page : string) (d : Qc) :
  graph_obj w !! page = None →
  transition_model page d w
  = (Raise (if decide (graph_obj w = ∅) then ZeroDivisionError else KeyError),
     bump_tm w).
Proof.
  intros Hpage. set (g := graph_obj w). unfold transition_model.
  rewrite (bind_Ret _ _ w (bump_tm w) ()) by done.
  rewrite (bind_Ret _ _ _ (bump_tm w) (Qc_of_nat (size g))) by done.
  destruct (decide (g = ∅)) as [Hg|Hg].
  - apply bind_Raise. unfold py_div. rewrite decide_True; [done|].
    rewrite Hg, map_size_empty. by apply Qc_of_nat_0.
  - set (rf := (1 - d) / Qc_of_nat (size g)).
    rewrite (bind_Ret _ _ _ (bump_tm w) rf).
    2:{ apply py_div_Ret. rewrite Qc_of_nat_0. by apply size_graph_ne_0. }
    rewrite (bind_Ret _ _ _ (bump_tm w) (keys g)) by done.
    destruct (for_each_pure (St := gmap string Qc)
                (λ _, True) (λ s k, <[k := rf]> s) (keys g)
                (λ key solution, ret (<[key := rf]> solution)) ∅ (bump_tm w))
      as [Hinit _]; [done|done|].
    rewrite (bind_Ret _ _ _ _ _ Hinit), const_dict_fmap, keys_fmap.
    pose proof (keys_ne_nil g Hg) as Hkeys.
    destruct (keys g) as [|web webs]; [done|].
    cbn [for_each]. apply bind_Raise. apply bind_Raise.
    unfold corpus_get, dict_get. cbn [graph_obj bump_tm].
    by rewrite Hpage.
Qed.

Lemma transition_model_missing_page_witness :
  transition_model "4.html" d85 w_ex
  = (Raise (if decide (graph_obj w_ex = ∅)
            then ZeroDivisionError else KeyError),
     bump_tm w_ex).
Proof.
  apply (transition_model_missing_page w_ex "4.html" d85).
  vm_compute. reflexivity.
Defined.

(** X7. The values of [transition_model] sum to [1 - damping] plus the share
    [damping / |links|] of every link of the page that is a page of the
    corpus: a link that leaves the corpus loses its share, and a page
    without links keeps [1 - damping] only. *)
Theorem transition_model_mass (w : world) (page : string) (d : Qc)
    (links : gset string) :
  graph_obj w !! page = Some links →
  ∃ solution,
    transition_model page d w = (Ret solution, bump_tm w)
    ∧ dict_total solution
      = if decide (links = ∅) then 1 - d
        else (1 - d)
             + d * (Qc_of_nat (size (links ∩ dom (graph_obj w)))
                    / set_len links).
Proof.
  intros Hpage.
  destruct (transition_model_total w page d links Hpage) as (sol & Hrun & Ht).
  exists sol. split; [exact Hrun|]. rewrite Ht.
  assert (length (filter (λ p, p ∈ links) (keys (graph_obj w)))
          = size (links ∩ dom (graph_obj w))) as ->.
  { change (size (links ∩ dom (graph_obj w)))
      with (length (elements (links ∩ dom (graph_obj w)))).
    apply Permutation_length, NoDup_Permutation.
    - apply NoDup_filter, NoDup_keys.
    - apply NoDup_elements.
    - intros p. rewrite list_elem_of_filter, elem_of_elements,
        elem_of_intersection, elem_of_keys_dom. done. }
  destruct (decide (links = ∅)) as [->|Hne].
  - rewrite (left_absorb_L ∅ (∩)), size_empty.
    rewrite (proj2 (Qc_of_nat_0 0)) by done. ring.
  - unfold Qcdiv. ring.
Qed.

Lemma transition_model_mass_witness :
  ∃ solution,
    transition_model "1.html" d85 w_ex = (Ret solution, bump_tm w_ex)
    ∧ dict_total solution
      = if decide (({[ "2.html"; "3.html" ]} : gset string) = ∅) then 1 - d85
        else (1 - d85)
             + d85 * (Qc_of_nat (size (({[ "2.html"; "3.html" ]} : gset string)
                                       ∩ dom (graph_obj w_ex)))
                      / set_len {[ "2.html"; "3.html" ]}).
Proof.
  apply (transition_model_mass w_ex "1.html" d85).
  vm_compute. reflexivity.
Defined.

(** ** The sampling estimator *)

Lemma sample_step_world (w : world) (d : Qc) (choice : string)
    (sample : list string) :
  0 ≤ d → d < 1 → choice ∈ dom (graph_obj w) →
  ∃ c,
    (model <~ transition_model choice d ;;
     op <~ zip_items model ;;
     choice <~ random_choices op.1 op.2 ;;
     ret (choice, sample ++ [choice])) w
    = (Ret (c, sample ++ [c]), advance (bump_tm w))
    ∧ c ∈ dom (graph_obj w).
Proof.
  intros Hd0 Hd1 Hchoice. set (g := graph_obj w).
  pose proof Hchoice as Hlinks. apply elem_of_dom in Hlinks as [links Hlinks].
  assert (g ≠ ∅) as Hg.
  { intros Hg. unfold g in Hg. by rewrite Hg in Hlinks. }
  destruct (transition_model_run w choice d links Hlinks) as (model & Hrun & Hl).
  assert (dom model = dom g) as Hdom.
  { exact (dom_of_lookup model g _ Hl). }
  assert (map_to_list model ≠ []) as Hitems.
  { rewrite map_to_list_empty_iff. intros Hm. apply Hg.
    apply dom_empty_iff_L. by rewrite <- Hdom, Hm, dom_empty_L. }
  destruct (random_choices_run (map_to_list model).*1 (map_to_list model).*2
              (bump_tm w)) as (c & Hc & Hin).
  { by destruct (map_to_list model). }
  { by rewrite !length_fmap. }
  { apply Forall_forall. intros v Hv.
    apply list_elem_of_fmap in Hv as [[k v'] [-> Hkv]].
    apply elem_of_map_to_list in Hkv. rewrite Hl in Hkv.
    destruct (decide (k ∈ dom (graph_obj w))); [|done].
    injection Hkv as <-. cbn.
    apply Qcplus_pos_nonneg; [by apply base_term_pos|].
    destruct (decide (k ∈ links)); [|done].
    apply Qc_div_nonneg; [done|apply Qc_of_nat_nonneg]. }
  exists c. split.
  - rewrite (bind_Ret _ _ _ _ _ Hrun).
    rewrite (bind_Ret _ _ _ (bump_tm w)
               ((map_to_list model).*1, (map_to_list model).*2)).
    2:{ unfold zip_items. by destruct (map_to_list model). }
    by rewrite (bind_Ret _ _ _ _ _ Hc).
  - fold g. rewrite <- Hdom. by apply elem_of_keys_dom.
Qed.

Lemma occurrences_cons (p x : string) (sample : list string) :
  occurrences p (x :: sample)
  = ((if decide (x = p) then 1 else 0) + occurrences p sample)%nat.
Proof.
  unfold occurrences. rewrite filter_cons. by destruct (decide (x = p)).
Qed.

Lemma tally_counts (w : world) (sample : list string)
    (solution : gmap string Qc) :
  (∀ x, x ∈ sample → x ∈ dom solution) →
  ∃ solution',
    for_each sample solution (λ item solution,
      cur <~ dict_get solution item ;;
      ret (<[item := cur + 1]> solution)) w = (Ret solution', w)
    ∧ ∀ p, solution' !! p
           = (λ v, v + Qc_of_nat (occurrences p sample)) <$> solution !! p.
Proof.
  revert solution. induction sample as [|x sample IH]; intros s Hin.
  - exists s. split; [done|]. intros p. unfold occurrences.
    rewrite filter_nil. cbn [length]. rewrite (proj2 (Qc_of_nat_0 0)) by done.
    destruct (s !! p) as [v|]; [|done]. cbn. f_equal. ring.
  - destruct (proj1 (elem_of_dom s x)) as [cur Hcur]; [apply Hin; left|].
    destruct (IH (<[x := cur + 1]> s)) as (s' & Hrun & Hl).
    { intros y Hy. rewrite dom_insert_L. apply elem_of_union_r, Hin. by right. }
    exists s'. split.
    + cbn [for_each].
      rewrite (bind_Ret _ _ _ w (<[x := cur + 1]> s)); [exact Hrun|].
      by rewrite (bind_Ret _ _ _ w cur) by by apply dict_get_Ret.
    + intros p. rewrite Hl, occurrences_cons.
      destruct (decide (x = p)) as [->|Hne].
      * rewrite lookup_insert_eq, Hcur. cbn. f_equal.
        rewrite Qc_of_nat_S. ring.
      * by rewrite lookup_insert_ne.
Qed.

(** A run of the sampling estimator, with the samples it drew. *)
Lemma sample_pagerank_run (w : world) (d : Qc) (n : Z) :
  graph_obj w ≠ ∅ → (1 ≤ n)%Z → 0 ≤ d → d < 1 →
  ∃ sample solution w',
    sample_pagerank d n w = (Ret solution, w')
    ∧ length sample = Z.to_nat n
    ∧ (∀ x, x ∈ sample → x ∈ dom (graph_obj w))
    ∧ (∀ p, solution !! p
            = if decide (p ∈ dom (graph_obj w))
              then Some (Qc_of_nat (occurrences p sample)
                         / Qc_of_nat (length sample))
              else None)
    ∧ cursor w' = (cursor w + Z.to_nat n)%nat
    ∧ tm_calls w' = (tm_calls w + (Z.to_nat n - 1))%nat
    ∧ graph_obj w' = graph_obj w.
Proof.
  intros Hg Hn Hd0 Hd1. set (g := graph_obj w).
  destruct (random_choice_run (keys g) w) as (first & Hfirst & Hchoice);
    [by apply keys_ne_nil|].
  assert (first ∈ dom g) as Hin.
  { apply elem_of_keys_dom. by eapply list_elem_of_lookup_2. }
  set (body := λ (_ : nat) (cs : string * list string),
         model <~ transition_model cs.1 d ;;
         op <~ zip_items model ;;
         choice <~ random_choices op.1 op.2 ;;
         ret (choice, cs.2 ++ [choice])).
  set (k := if decide (n > 1)%Z then Z.to_nat (n - 1) else 0%nat).
  assert (∃ cs w1,
            (if decide (n > 1)%Z then
               for_each (seq 0 (Z.to_nat (n - 1))) (first, [] ++ [first]) body
             else ret (first, [] ++ [first])) (advance w) = (Ret cs, w1)
            ∧ (∀ x, x ∈ cs.2 → x ∈ dom g)
            ∧ length cs.2 = S k
            ∧ graph_obj w1 = g
            ∧ cursor w1 = (S (cursor w) + k)%nat
            ∧ tm_calls w1 = (tm_calls w + k)%nat)
    as (cs & w1 & Hloop & Hsample & Hlen & Hg1 & Hcur & Htm).
  { unfold k. destruct (decide (n > 1)%Z) as [Hgt|Hle].
    - destruct (for_each_inv
                  (λ i (cs : string * list string) w',
                     graph_obj w' = g ∧ cs.1 ∈ dom g
                     ∧ (∀ x, x ∈ cs.2 → x ∈ dom g) ∧ length cs.2 = S i
                     ∧ cursor w' = (S (cursor w) + i)%nat
                     ∧ tm_calls w' = (tm_calls w + i)%nat)
                  (seq 0 (Z.to_nat (n - 1))) body
                  (first, [] ++ [first]) (advance w))
        as (cs & w1 & Hrun & Hg1 & _ & Hall & Hlen & Hcur & Htm).
      + split; [done|]. split; [done|]. split.
        { intros x Hx. apply list_elem_of_singleton in Hx. by subst x. }
        split; [done|]. cbn. split; lia.
      + intros i x [c sample] w' _ (Hw' & Hc & Hall & Hlen & Hcur & Htm).
        cbn [fst snd] in *.
        destruct (sample_step_world w' d c sample Hd0 Hd1) as (c' & Hstep & Hc');
          [by rewrite Hw'|].
        exists (c', sample ++ [c']), (advance (bump_tm w')).
        split; [exact Hstep|]. cbn [fst snd]. rewrite Hw' in *.
        split; [done|]. split; [done|]. split.
        { intros y [Hy|Hy]%elem_of_app; [by apply Hall|].
          apply list_elem_of_singleton in Hy. by subst y. }
        split; [rewrite length_app; cbn; lia|]. cbn. split; lia.
      + rewrite length_seq in *. by exists cs, w1.
    - exists (first, [] ++ [first]), (advance w). split; [done|].
      split.
      { intros x Hx. apply list_elem_of_singleton in Hx. by subst x. }
      split; [done|]. split; [done|]. cbn. split; lia. }
  destruct (tally_counts w1 cs.2 ((λ _, 0) <$> g)) as (tallied & Htally & Hcount).
  { intros x Hx. rewrite dom_fmap_L. by apply Hsample. }
  assert (Qc_of_nat (length cs.2) ≠ 0) as Hlen0.
  { rewrite Qc_of_nat_0, Hlen. done. }
  destruct (normalise_run w1 (Qc_of_nat (length cs.2)) tallied Hlen0)
    as (solution & Hnorm & Hl).
  exists cs.2, solution, w1.
  assert (S k = Z.to_nat n) as Hk.
  { unfold k. destruct (decide (n > 1)%Z); lia. }
  split; [|split; [lia|split; [exact Hsample|split; [|split; [lia|split; [lia|done]]]]]].
  - unfold sample_pagerank.
    rewrite (bind_Ret _ _ _ w (keys g)) by done.
    destruct (for_each_pure (St := gmap string Qc) (λ _, True)
                (λ s k, <[k := 0]> s) (keys g)
                (λ key solution, ret (<[key := 0]> solution)) ∅ w)
      as [Hinit _]; [done|done|].
    rewrite (bind_Ret _ _ _ _ _ Hinit), const_dict_fmap.
    rewrite (bind_Ret _ _ _ _ _ Hchoice).
    rewrite (bind_Ret _ _ _ _ _ Hloop).
    rewrite (bind_Ret _ _ _ _ _ Htally).
    exact Hnorm.
  - intros p. rewrite Hl, Hcount, lookup_fmap.
    destruct (decide (p ∈ dom g)) as [Hp|Hp].
    + apply elem_of_dom in Hp as [x ->]. cbn. do 2 f_equal. ring.
    + apply not_elem_of_dom in Hp. by rewrite Hp.
Qed.

(** X8. For a non-empty graph, [n ≥ 1] and [0 ≤ damping < 1],
    [sample_pagerank] returns a distribution: one value for every page of
    the graph and for nothing else, no value negative, the values summing
    to exactly one. *)
Theorem sample_pagerank_is_distribution (w : world) (damping : Qc) (n : Z) :
  graph_obj w ≠ ∅ → (1 ≤ n)%Z → 0 ≤ damping → damping < 1 →
  ∃ solution w',
    sample_pagerank damping n w = (Ret solution, w')
    ∧ dom solution = dom (graph_obj w)
    ∧ (∀ p v, solution !! p = Some v → 0 ≤ v)
    ∧ dict_total solution = 1.
Proof.
  intros Hg Hn Hd0 Hd1.
  destruct (sample_pagerank_distribution w damping n Hg Hn Hd0 Hd1)
    as (solution & w' & Hrun & Hdom & Hpos & Htotal).
  exists solution, w'. repeat split; assumption.
Qed.

Lemma sample_pagerank_is_distribution_witness :
  ∃ solution w',
    sample_pagerank d85 3 w_ex = (Ret solution, w')
    ∧ dom solution = dom (graph_obj w_ex)
    ∧ (∀ p v, solution !! p = Some v → 0 ≤ v)
    ∧ dict_total solution = 1.
Proof.
  apply (sample_pagerank_is_distribution w_ex d85 3).
  - graph_nonempty.
  - lia.
  - by vm_compute.
  - by vm_compute.
Defined.

(** X9. For a non-empty graph, [n ≥ 1] and [0 ≤ damping < 1], the value
    [sample_pagerank] gives a page is its visit frequency:
    the call draws [n] samples, all pages of the graph, and gives every
    page the number of samples equal to it, divided by [n]. *)
Theorem sample_pagerank_frequencies (w : world) (damping : Qc) (n : Z) :
  graph_obj w ≠ ∅ → (1 ≤ n)%Z → 0 ≤ damping → damping < 1 →
  ∃ sample solution w',
    sample_pagerank damping n w = (Ret solution, w')
    ∧ Z.of_nat (length sample) = n
    ∧ (∀ x, x ∈ sample → x ∈ dom (graph_obj w))
    ∧ ∀ p, p ∈ dom (graph_obj w) →
        solution !! p
        = Some (Qc_of_nat (occurrences p sample) / Qc_of_Z n).
Proof.
  intros Hg Hn Hd0 Hd1.
  destruct (sample_pagerank_run w damping n Hg Hn Hd0 Hd1)
    as (sample & sol & w' & Hrun & Hlen & Hin & Hl & _).
  exists sample, sol, w'. split; [exact Hrun|]. split; [lia|].
  split; [exact Hin|]. intros p Hp. rewrite Hl, decide_True by done.
  unfold Qc_of_nat at 2. rewrite Hlen, Z2Nat.id by lia. done.
Qed.

Lemma sample_pagerank_frequencies_witness :
  ∃ sample solution w',
    sample_pagerank d85 3 w_ex = (Ret solution, w')
    ∧ Z.of_nat (length sample) = 3%Z
    ∧ (∀ x, x ∈ sample → x ∈ dom (graph_obj w_ex))
    ∧ ∀ p, p ∈ dom (graph_obj w_ex) →
        solution !! p
        = Some (Qc_of_nat (occurrences p sample) / Qc_of_Z 3).
Proof.
  apply (sample_pagerank_frequencies w_ex d85 3).
  - graph_nonempty.
  - lia.
  - by vm_compute.
  - by vm_compute.
Defined.

(** X10. For a non-empty graph, [n ≥ 1] and [0 ≤ damping < 1], a call of
    [sample_pagerank] makes exactly [n] random draws and
    [n - 1] calls of [transition_model]. *)
Theorem sample_pagerank_cost (w : world) (damping : Qc) (n : Z) :
  graph_obj w ≠ ∅ → (1 ≤ n)%Z → 0 ≤ damping → damping < 1 →
  ∃ solution w',
    sample_pagerank damping n w = (Ret solution, w')
    ∧ Z.of_nat (cursor w') = (Z.of_nat (cursor w) + n)%Z
    ∧ Z.of_nat (tm_calls w') = (Z.of_nat (tm_calls w) + (n - 1))%Z.
Proof.
  intros Hg Hn Hd0 Hd1.
  destruct (sample_pagerank_run w damping n Hg Hn Hd0 Hd1)
    as (sample & sol & w' & Hrun & _ & _ & _ & Hcur & Htm & _).
  exists sol, w'. split; [exact Hrun|]. lia.
Qed.

Lemma sample_pagerank_cost_witness :
  ∃ solution w',
    sample_pagerank d85 3 w_ex = (Ret solution, w')
    ∧ Z.of_nat (cursor w') = (Z.of_nat (cursor w_ex) + 3)%Z
    ∧ Z.of_nat (tm_calls w') = (Z.of_nat (tm_calls w_ex) + (3 - 1))%Z.
Proof.
  apply (sample_pagerank_cost w_ex d85 3).
  - graph_nonempty.
  - lia.
  - by vm_compute.
  - by vm_compute.
Defined.

(** X11. With [n ≤ 1] on a non-empty graph the call does what it does for
    [n = 1], whatever the damping factor. *)
Theorem sample_pagerank_small_n (w : world) (damping damping' : Qc) (n : Z) :
  graph_obj w ≠ ∅ → (n ≤ 1)%Z →
  sample_pagerank damping n w = sample_pagerank damping' 1 w.
Proof.
  intros Hg Hn.
  destruct (sample_pagerank_single w damping n Hg Hn)
    as (first & sol & Hf & -> & Hl).
  destruct (sample_pagerank_single w damping' 1 Hg)
    as (first' & sol' & Hf' & -> & Hl'); [lia|].
  rewrite Hf in Hf'. injection Hf' as <-.
  do 2 f_equal. apply map_eq. intros p. by rewrite Hl, Hl'.
Qed.

Lemma sample_pagerank_small_n_witness :
  sample_pagerank d85 (-2) w_ex = sample_pagerank 1 1 w_ex.
Proof.
  apply (sample_pagerank_small_n w_ex d85 1 (-2)).
  - graph_nonempty.
  - lia.
Defined.

Lemma last_accumulate_zero (a : Qc) (ws : list Qc) :
  ws ≠ [] → Forall (λ x, x = 0) ws → last (accumulate_from a ws) = Some a.
Proof.
  intros Hne Hz. revert a. induction Hz as [|x ws -> Hws IH]; intros a; [done|].
  cbn [accumulate_from]. rewrite Qcplus_0_r.
  destruct ws as [|y ws]; [done|].
  specialize (IH ltac:(done) a). cbn [accumulate_from] in *.
  by rewrite last_cons_cons.
Qed.

(** X12. With damping factor [1] the walk cannot leave a page without links:
    when the first page drawn has none and [n > 1], [sample_pagerank]
    fails with the [ValueError] of [random.choices], whose weights are all
    zero, after one draw and one call of [transition_model]. *)
Theorem sample_pagerank_damping_one (w : world) (n : Z) (first : string) :
  keys (graph_obj w)
    !! (N.to_nat (entropy w (cursor w)) mod size (graph_obj w))%nat
  = Some first →
  graph_obj w !! first = Some ∅ →
  (1 < n)%Z →
  sample_pagerank 1 n w = (Raise ValueError, bump_tm (advance w)).
Proof.
  intros Hfirst Hdangling Hn. set (g := graph_obj w).
  assert (g ≠ ∅) as Hg.
  { intros Hg. unfold g in Hg. by rewrite Hg in Hdangling. }
  destruct (random_choice_run (keys g) w) as (first' & Hfirst' & Hchoice);
    [by apply keys_ne_nil|].
  rewrite length_keys in Hfirst'. unfold g in Hfirst'.
  rewrite Hfirst in Hfirst'. injection Hfirst' as <-.
  destruct (transition_model_run (advance w) first 1 ∅ Hdangling)
    as (model & Hrun & Hl).
  assert (dom model = dom g) as Hdom.
  { exact (dom_of_lookup model g _ Hl). }
  assert (map_to_list model ≠ []) as Hitems.
  { rewrite map_to_list_empty_iff. intros Hm. apply Hg.
    apply dom_empty_iff_L. by rewrite <- Hdom, Hm, dom_empty_L. }
  unfold sample_pagerank.
  rewrite (bind_Ret _ _ _ w (keys g)) by done.
  destruct (for_each_pure (St := gmap string Qc) (λ _, True)
              (λ s k, <[k := 0]> s) (keys g)
              (λ key solution, ret (<[key := 0]> solution)) ∅ w)
    as [Hinit _]; [done|done|].
  rewrite (bind_Ret _ _ _ _ _ Hinit), const_dict_fmap.
  rewrite (bind_Ret _ _ _ _ _ Hchoice).
  apply bind_Raise. rewrite decide_True by lia.
  replace (Z.to_nat (n - 1)) with (S (Z.to_nat (n - 2))) by lia.
  cbn [seq for_each]. apply bind_Raise. cbn [fst snd].
  rewrite (bind_Ret _ _ _ _ _ Hrun).
  rewrite (bind_Ret _ _ _ (bump_tm (advance w))
             ((map_to_list model).*1, (map_to_list model).*2)).
  2:{ unfold zip_items. by destruct (map_to_list model). }
  apply bind_Raise. cbn [fst snd]. unfold random_choices, accumulate.
  rewrite decide_True by (by rewrite length_accumulate_from, !length_fmap).
  rewrite last_accumulate_zero.
  - by rewrite decide_True.
  - by destruct (map_to_list model).
  - apply Forall_forall. intros v Hv.
    apply list_elem_of_fmap in Hv as [[k v'] [-> Hkv]].
    apply elem_of_map_to_list in Hkv. rewrite Hl in Hkv.
    destruct (decide (k ∈ dom (graph_obj (advance w)))); [|done].
    injection Hkv as <-. cbn.
    rewrite decide_False by apply not_elem_of_empty.
    unfold Qcdiv. ring.
Qed.

Lemma sample_pagerank_damping_one_witness :
  sample_pagerank 1 5 (world_of with_dangling (λ _, 1%N))
  = (Raise ValueError, bump_tm (advance (world_of with_dangling (λ _, 1%N)))).
Proof.
  apply (sample_pagerank_damping_one _ 5 "2").
  - vm_compute. reflexivity.
  - vm_compute. reflexivity.
  - lia.
Defined.

(** ** The iterative estimator *)

(** X13. On a non-empty graph, whatever the damping factor, what
    [iterate_pagerank] returns has one value for every page of the graph
    and for nothing else, and the call makes no random draw and no call
    of [transition_model]. *)
Theorem iterate_pagerank_keys (w : world) (damping : Qc) :
  graph_obj w ≠ ∅ →
  ∀ fuel ranks w',
    iterate_pagerank fuel damping w = (Ret ranks, w') →
    dom ranks = dom (graph_obj w) ∧ w' = w.
Proof.
  intros Hg fuel ranks w' Hrun.
  apply (iterate_pagerank_result w (graph_obj w) damping eq_refl Hg) in Hrun
    as [-> (j & -> & _)].
  split; [apply dom_ranks_at|done].
Qed.

Lemma iterate_pagerank_keys_witness :
  ∃ ranks,
    iterate_pagerank 1 d85 (world_of two_cycle tape0)
    = (Ret ranks, world_of two_cycle tape0)
    ∧ dom ranks = dom (graph_obj (world_of two_cycle tape0))
    ∧ world_of two_cycle tape0 = world_of two_cycle tape0.
Proof.
  assert (∃ ranks, iterate_pagerank 1 d85 (world_of two_cycle tape0)
                   = (Ret ranks, world_of two_cycle tape0))
    as [ranks Hrun] by (eexists; vm_compute; reflexivity).
  exists ranks. split; [exact Hrun|].
  apply (iterate_pagerank_keys (world_of two_cycle tape0) d85
           ltac:(graph_nonempty) 1%nat _ _ Hrun).
Defined.

Lemma initial_ranks_fixed (w : world) (d : Qc) (fuel : nat) :
  graph_obj w ≠ ∅ →
  next_ranks (graph_obj w) d (initial_ranks (graph_obj w))
  = initial_ranks (graph_obj w) →
  iterate_pagerank (S fuel) d w = (Ret (initial_ranks (graph_obj w)), w).
Proof.
  intros Hg Hfix. set (g := graph_obj w) in *.
  rewrite (iterate_pagerank_unfold w g _ _ eq_refl Hg).
  rewrite (iterate_loop_unfold w g _ _ _ _ eq_refl Hg);
    [|apply dom_initial_ranks|apply dom_fmap_L].
  rewrite Hfix.
  assert (converged (initial_ranks g) (initial_ranks g) = true) as ->; [|done].
  unfold converged. apply forallb_forall. intros p _.
  apply bool_decide_eq_true.
  replace (rank_of (initial_ranks g) p - rank_of (initial_ranks g) p)
    with (Q2Qc 0) by ring.
  done.
Qed.

(** X14. With damping factor [0] the first round already passes the
    convergence test: on a non-empty graph [iterate_pagerank] returns the
    uniform distribution [1 / N]. *)
Theorem iterate_pagerank_damping_zero (w : world) (fuel : nat) :
  graph_obj w ≠ ∅ →
  ∃ ranks,
    iterate_pagerank (S fuel) 0 w = (Ret ranks, w)
    ∧ ∀ p, p ∈ dom (graph_obj w) →
        ranks !! p = Some (1 / Qc_of_nat (size (graph_obj w))).
Proof.
  intros Hg. exists (initial_ranks (graph_obj w)). split.
  - apply initial_ranks_fixed; [done|]. apply map_eq. intros p.
    rewrite lookup_next_ranks. unfold initial_ranks. rewrite lookup_fmap.
    destruct (decide (p ∈ dom (graph_obj w))) as [Hp|Hp].
    + apply elem_of_dom in Hp as [x ->]. cbn. f_equal.
      unfold spec_new_rank, Qcdiv. ring.
    + apply not_elem_of_dom in Hp. by rewrite Hp.
  - intros p [x Hx]%elem_of_dom. unfold initial_ranks.
    by rewrite lookup_fmap, Hx.
Qed.

Lemma iterate_pagerank_damping_zero_witness :
  ∃ ranks,
    iterate_pagerank 1 0 w_ex = (Ret ranks, w_ex)
    ∧ ∀ p, p ∈ dom (graph_obj w_ex) →
        ranks !! p = Some (1 / Qc_of_nat (size (graph_obj w_ex))).
Proof.
  apply (iterate_pagerank_damping_zero w_ex 0).
  graph_nonempty.
Defined.

Lemma Qc_inv_ne_0 (y : Qc) : 0 < y → 1 / y ≠ 0.
Proof.
  intros Hy Hz. pose proof (Qc_div_pos 1 y) as Hpos.
  rewrite Hz in Hpos. by apply (Qclt_not_eq 0 0); [apply Hpos|].
Qed.

Lemma iterate_pagerank_closed_total (w : world) (damping : Qc) :
  graph_obj w ≠ ∅ →
  map_Forall (λ _ links, links ⊆ dom (graph_obj w)) (graph_obj w) →
  map_Exists (λ _ links, links = ∅) (graph_obj w)
  ∨ set_Forall (λ p, map_Exists (λ _ links, p ∈ links) (graph_obj w))
      (dom (graph_obj w)) →
  0 ≤ damping → damping < 1 →
  (∃ fuel ranks, iterate_pagerank fuel damping w = (Ret ranks, w))
  ∧ ∀ fuel ranks w',
      iterate_pagerank fuel damping w = (Ret ranks, w') →
      dict_total ranks = 1.
Proof.
  intros Hg Hclosed Hin Hd0 Hd1. set (g := graph_obj w) in *. split.
  - destruct (iterate_pagerank_returns w g damping eq_refl Hg Hd0 Hd1)
      as (fuel & j & Hrun & _).
    exists fuel, (ranks_at g damping (S j)). by apply Hrun.
  - intros fuel ranks w' Hrun.
    apply (iterate_pagerank_total_one w damping fuel ranks w'); try done.
    intros p Hp. fold g. fold g in Hp.
    assert (0 < Qc_of_nat (size g)) as HN by by apply N_pos.
    destruct Hin as [(q & links & Hq & ->)|Hall].
    + exists q. split; [apply elem_of_keys; by eexists|].
      unfold link_weight. cbn zeta. rewrite Hq. cbn [default from_option id].
      rewrite decide_False by apply not_elem_of_empty.
      rewrite decide_True by done. rewrite Qcplus_0_l.
      by apply Qc_inv_ne_0.
    + apply elem_of_keys_dom in Hp.
      destruct (Hall p Hp) as (q & links & Hq & Hpl).
      exists q. split; [apply elem_of_keys; by eexists|].
      unfold link_weight. cbn zeta. rewrite Hq. cbn [default from_option id].
      rewrite decide_True by done.
      rewrite decide_False
        by (intros ->; by apply not_elem_of_empty in Hpl).
      rewrite Qcplus_0_r. apply Qc_inv_ne_0, Qc_of_nat_pos.
      intros Hs. apply size_empty_iff, leibniz_equiv in Hs. subst links.
      by apply not_elem_of_empty in Hpl.
Qed.

(** X15. On a graph in which every link leads to a page of the graph, and in
    which some page has no links or every page is linked from some page,
    what [iterate_pagerank] returns for [0 ≤ damping < 1] sums to
    exactly one. *)
Theorem iterate_pagerank_sums_to_one (w : world) (damping : Qc) :
  graph_obj w ≠ ∅ →
  map_Forall (λ _ links, links ⊆ dom (graph_obj w)) (graph_obj w) →
  map_Exists (λ _ links, links = ∅) (graph_obj w)
  ∨ set_Forall (λ p, map_Exists (λ _ links, p ∈ links) (graph_obj w))
      (dom (graph_obj w)) →
  0 ≤ damping → damping < 1 →
  ∀ fuel ranks w',
    iterate_pagerank fuel damping w = (Ret ranks, w') →
    dict_total ranks = 1.
Proof.
  intros Hg Hclosed Hin Hd0 Hd1.
  destruct (iterate_pagerank_closed_total w damping Hg Hclosed Hin Hd0 Hd1)
    as [_ Htotal].
  exact Htotal.
Qed.

Lemma iterate_pagerank_sums_to_one_witness :
  ∃ ranks,
    iterate_pagerank 20 d85 (world_of with_dangling tape0)
    = (Ret ranks, world_of with_dangling tape0)
    ∧ dict_total ranks = 1.
Proof.
  assert (∃ ranks, iterate_pagerank 20 d85 (world_of with_dangling tape0)
                   = (Ret ranks, world_of with_dangling tape0))
    as [ranks Hrun] by (eexists; vm_compute; reflexivity).
  exists ranks. split; [exact Hrun|].
  apply (iterate_pagerank_sums_to_one (world_of with_dangling tape0) d85
           ltac:(graph_nonempty)
           ltac:(apply (bool_decide_unpack _); by vm_compute)
           ltac:(left; apply (bool_decide_unpack _); by vm_compute)
           ltac:(by vm_compute) ltac:(by vm_compute)
           20%nat ranks _ Hrun).
Defined.

(** *** Complete graphs *)

Lemma complete_row_sum (g : gmap string (gset string)) (p : string) :
  g ≠ ∅ →
  map_Forall (λ q links, links = dom g ∖ {[q]}) g →
  p ∈ dom g →
  Qsum (λ q, link_weight g p q) (keys g) = 1.
Proof.
  intros Hg Hcomplete Hp.
  pose proof Hp as Hk. apply elem_of_keys_dom in Hk.
  apply elem_of_Permutation in Hk as [rest Hperm].
  pose proof (NoDup_keys g) as Hnd. rewrite Hperm in Hnd.
  apply NoDup_cons in Hnd as [Hprest _].
  assert (size g = S (length rest)) as Hsize.
  { by rewrite <- length_keys, Hperm. }
  assert (dom g ∖ {[p]} = list_to_set rest) as Hrest.
  { apply set_eq. intros q.
    rewrite elem_of_difference, elem_of_singleton, elem_of_list_to_set,
      <- elem_of_keys_dom, Hperm, elem_of_cons.
    split; [by intros [[?|?] ?]|]. intros Hq. split; [by right|].
    by intros ->. }
  assert (∀ q, q ∈ dom g →
            link_weight g p q
            = (if decide (p ∈ dom g ∖ {[q]})
               then 1 / set_len (dom g ∖ {[q]}) else 0)
              + (if decide (dom g ∖ {[q]} = ∅)
                 then 1 / Qc_of_nat (size g) else 0)) as Hlw.
  { intros q [links Hq]%elem_of_dom. unfold link_weight. cbn zeta.
    rewrite Hq. cbn [default from_option id].
    by rewrite (Hcomplete q links Hq). }
  assert (∀ q, q ∈ dom g → size (dom g ∖ {[q]}) = length rest) as Hlen.
  { intros q Hq. rewrite size_difference by by apply singleton_subseteq_l.
    rewrite size_singleton, size_dom, Hsize. lia. }
  rewrite (Qsum_perm _ _ _ Hperm), Qsum_cons, (Hlw p Hp).
  rewrite (decide_False (P := p ∈ dom g ∖ {[p]}))
    by (rewrite elem_of_difference, elem_of_singleton; by intros [_ ?]).
  rewrite Qcplus_0_l.
  destruct rest as [|r rest].
  - rewrite decide_True.
    2:{ by rewrite Hrest. }
    rewrite Hsize. cbn [length Qsum foldr].
    rewrite Qc_of_nat_S, (proj2 (Qc_of_nat_0 0)) by done.
    apply Qc_is_canon. reflexivity.
  - rewrite decide_False.
    2:{ intros Hemp. apply (f_equal size) in Hemp.
        rewrite Hlen, size_empty in Hemp by done. discriminate Hemp. }
    rewrite Qcplus_0_l.
    rewrite (Qsum_ext _ (λ _, 1 / Qc_of_nat (length (r :: rest)))).
    + rewrite Qsum_const. apply Qc_mul_inv_self. by rewrite Qc_of_nat_0.
    + intros q Hq.
      assert (q ∈ dom g) as Hqd.
      { apply elem_of_keys_dom. rewrite Hperm. by right. }
      rewrite (Hlw q Hqd).
      rewrite decide_True.
      2:{ rewrite elem_of_difference, elem_of_singleton. split; [done|].
          intros ->. by apply Hprest. }
      rewrite decide_False.
      2:{ intros Hemp. apply (f_equal size) in Hemp.
          rewrite Hlen, size_empty in Hemp by done. discriminate Hemp. }
      unfold set_len. rewrite Hlen by done. ring.
Qed.

(** X16. On a graph in which every page links to every other page,
    [iterate_pagerank] returns the uniform distribution [1 / N] after one
    round, for every damping factor from [0] to [1]. *)
Theorem iterate_pagerank_complete_graph (w : world) (damping : Qc)
    (fuel : nat) :
  graph_obj w ≠ ∅ →
  map_Forall (λ q links, links = dom (graph_obj w) ∖ {[q]}) (graph_obj w) →
  0 ≤ damping → damping ≤ 1 →
  ∃ ranks,
    iterate_pagerank (S fuel) damping w = (Ret ranks, w)
    ∧ ∀ p, p ∈ dom (graph_obj w) →
        ranks !! p = Some (1 / Qc_of_nat (size (graph_obj w))).
Proof.
  intros Hg Hcomplete _ _. set (g := graph_obj w) in *.
  exists (initial_ranks g). split.
  - apply initial_ranks_fixed; [done|]. fold g. apply map_eq. intros p.
    rewrite lookup_next_ranks. unfold initial_ranks at 2. rewrite lookup_fmap.
    destruct (decide (p ∈ dom g)) as [Hp|Hp].
    2:{ apply not_elem_of_dom in Hp. by rewrite Hp. }
    pose proof Hp as [x Hx]%elem_of_dom. rewrite Hx. cbn. f_equal.
    assert (spec_addition g (initial_ranks g) p = 1 / Qc_of_nat (size g))
      as Hadd.
    { rewrite spec_addition_weights.
      rewrite (Qsum_ext _ (λ q, 1 / Qc_of_nat (size g) * link_weight g p q)).
      - rewrite Qsum_scale, complete_row_sum by done. ring.
      - intros q Hq. by rewrite rank_of_initial_ranks. }
    assert (Qc_of_nat (size g) ≠ 0) as HN by by apply N_ne_0.
    unfold spec_new_rank, spec_addition'. rewrite Hadd.
    destruct (decide (1 / Qc_of_nat (size g) = 0)); field; done.
  - intros p [x Hx]%elem_of_dom. unfold initial_ranks.
    by rewrite lookup_fmap, Hx.
Qed.

Lemma iterate_pagerank_complete_graph_witness :
  ∃ ranks,
    iterate_pagerank 1 d85 (world_of two_cycle tape0)
    = (Ret ranks, world_of two_cycle tape0)
    ∧ ∀ p, p ∈ dom (graph_obj (world_of two_cycle tape0)) →
        ranks !! p
        = Some (1 / Qc_of_nat (size (graph_obj (world_of two_cycle tape0)))).
Proof.
  apply (iterate_pagerank_complete_graph (world_of two_cycle tape0) d85 0).
  - graph_nonempty.
  - apply (bool_decide_unpack _). by vm_compute.
  - by vm_compute.
  - by vm_compute.
Defined.

(** *** The mass the zero-addition substitution adds *)

Section surplus.
Context (g : gmap string (gset string)) (p0 : string).
Hypothesis Hg : g ≠ ∅.
Hypothesis Hclosed : map_Forall (λ _ links, links ⊆ dom g) g.
Hypothesis Hlinked : map_Forall (λ _ links, links ≠ ∅) g.
Hypothesis Hp0 : p0 ∈ dom g.
Hypothesis Hnone : map_Forall (λ _ links, p0 ∉ links) g.




End surplus.



Lemma Qsum_le_const {A} (f : A → Qc) (c : Qc) (l : list A) :
  (∀ x, x ∈ l → f x ≤ c) → Qsum f l ≤ Qc_of_nat (length l) * c.
Proof.
  intros Hf. rewrite <- Qsum_const. by apply Qsum_le.
Qed.

(** X18. What [iterate_pagerank] returns for [0 ≤ damping < 1] is close to a
    fixed point of the update: one more round from the returned ranks
    changes them, summed over the pages, by at most
    [damping * N * 0.001]. *)
Theorem iterate_pagerank_stable (w : world) (damping : Qc) :
  graph_obj w ≠ ∅ → 0 ≤ damping → damping < 1 →
  ∀ fuel ranks w',
    iterate_pagerank fuel damping w = (Ret ranks, w') →
    ∃ again,
      update_round damping
        ((1 - damping) / Qc_of_nat (size (graph_obj w))) ranks ranks w
      = (Ret again, w)
      ∧ dist (graph_obj w) ranks again
        ≤ damping * (Qc_of_nat (size (graph_obj w)) * threshold).
Proof.
  intros Hg Hd0 Hd1 fuel ranks w' Hrun. set (g := graph_obj w) in *.
  apply (iterate_pagerank_result w g damping eq_refl Hg) in Hrun
    as [_ (j & -> & Hconv)].
  exists (next_ranks g damping (ranks_at g damping (S j))). split.
  - apply update_round_next; [done|apply dom_ranks_at..].
  - rewrite (ranks_at_S g damping j) at 1.
    etrans; [apply next_ranks_contract;
             [done|done|by apply ranks_at_positive..]|].
    apply Qcmult_le_mono_nonneg_l; [done|].
    rewrite <- length_keys. apply Qsum_le_const. intros p Hp.
    apply Qclt_le_weak. rewrite Qcabs_Qcminus.
    apply converged_pages; [exact Hconv|].
    rewrite dom_ranks_at. by apply elem_of_keys_dom.
Qed.

Lemma iterate_pagerank_stable_witness :
  ∃ ranks,
    iterate_pagerank 1 d85 (world_of two_cycle tape0)
    = (Ret ranks, world_of two_cycle tape0)
    ∧ ∃ again,
        update_round d85
          ((1 - d85) / Qc_of_nat (size (graph_obj (world_of two_cycle tape0))))
          ranks ranks (world_of two_cycle tape0)
        = (Ret again, world_of two_cycle tape0)
        ∧ dist (graph_obj (world_of two_cycle tape0)) ranks again
          ≤ d85 * (Qc_of_nat (size (graph_obj (world_of two_cycle tape0)))
                   * threshold).
Proof.
  assert (∃ ranks, iterate_pagerank 1 d85 (world_of two_cycle tape0)
                   = (Ret ranks, world_of two_cycle tape0))
    as [ranks Hrun] by (eexists; vm_compute; reflexivity).
  exists ranks. split; [exact Hrun|].
  apply (iterate_pagerank_stable (world_of two_cycle tape0) d85
           ltac:(graph_nonempty) ltac:(by vm_compute) ltac:(by vm_compute)
           1%nat _ _ Hrun).
Defined.

(** X19. On the corpus [crawl] returns, if it has a page at all and either a
    page without links or a link to every page, what [iterate_pagerank]
    returns for [0 ≤ damping < 1] sums, in exact arithmetic, to one: the
    crawler already keeps every link inside the corpus. *)
Theorem crawl_iterate_pagerank_total (listing : list (string * list string))
    (w0 w : world) (pages : gmap string (gset string)) (damping : Qc) :
  crawl listing w0 = (Ret pages, w0) →
  graph_obj w = pages →
  pages ≠ ∅ →
  map_Exists (λ _ links, links = ∅) pages
  ∨ set_Forall (λ p, map_Exists (λ _ links, p ∈ links) pages) (dom pages) →
  0 ≤ damping → damping < 1 →
  ∀ fuel ranks w',
    iterate_pagerank fuel damping w = (Ret ranks, w') →
    dict_total ranks = 1.
Proof.
  intros Hcrawl Hw Hne Hin Hd0 Hd1.
  apply iterate_pagerank_closed_total; rewrite ?Hw; try done.
  intros q links Hq. by apply (crawl_result_closed listing w0 w0 pages q).
Qed.

Lemma crawl_iterate_pagerank_total_witness :
  ∃ ranks,
    iterate_pagerank 20 d85 (world_of corpus_leaf tape0)
    = (Ret ranks, world_of corpus_leaf tape0)
    ∧ dict_total ranks = 1.
Proof.
  assert (crawl [("1.html", ["2.html"; "style.css"]); ("2.html", [])]%string
            w_ex
          = (Ret corpus_leaf, w_ex)) as Hcrawl by (vm_compute; reflexivity).
  assert (∃ ranks, iterate_pagerank 20 d85 (world_of corpus_leaf tape0)
                   = (Ret ranks, world_of corpus_leaf tape0))
    as [ranks Hrun] by (eexists; vm_compute; reflexivity).
  exists ranks. split; [exact Hrun|].
  apply (crawl_iterate_pagerank_total _ w_ex (world_of corpus_leaf tape0)
           corpus_leaf d85 Hcrawl eq_refl
           ltac:(graph_nonempty)
           ltac:(left; apply (bool_decide_unpack _); by vm_compute)
           ltac:(by vm_compute) ltac:(by vm_compute)
           20%nat ranks _ Hrun).
Defined.
